(** * ttyc: escape-sequence multiplexer and ttyd protocol engine

    A shallow embedding of [cmd/ttyc/handlers/stdfds.go] (the tio-style
    console handler that looks for Ctrl+T key commands in the bytes typed by
    the user) and of [ws/protocol.go] (the WebSocket client: flow control,
    shutdown and redial state machine, channel loop, watchdog).

    Go slices of bytes are lists of [Byte.byte], Go [int]s that serve as
    positions are [Z], a run-time panic is an explicit outcome, and what a
    goroutine does to the outside world (channel sends, prints, writes to the
    socket) is recorded as a trace. *)

From Stdlib Require Import ZArith List Bool Lia String Ascii.
From Stdlib Require Import Strings.Byte.
Import ListNotations.

Local Open Scope Z_scope.

(** ** Go primitives *)

Module Go.

(** Slices of bytes, by their elements.  The capacity is not kept: see
    [slice_to]. *)
Definition bytes := list byte.

Definition len (s : bytes) : Z := Z.of_nat (List.length s).

(** [s[i]]: run-time panic unless [0 <= i < len(s)]. *)
Definition index (s : bytes) (i : Z) : option byte :=
  if (0 <=? i) && (i <? len s) then nth_error s (Z.to_nat i) else None.

(** [s[lo:]]: run-time panic unless [0 <= lo <= len(s)]. *)
Definition slice_from (s : bytes) (lo : Z) : option bytes :=
  if (0 <=? lo) && (lo <=? len s) then Some (skipn (Z.to_nat lo) s) else None.

(** [s[:hi]].  Go checks [hi] against the capacity of [s], which is at
    least its length.  The program has one [s[:hi]] where [hi] can exceed
    the length, and it is followed at once by [s[hi]], which panics when
    [hi >= len(s)] (see [Mux.handleStdin_body]); so the check is made here
    against the length: run-time panic unless [0 <= hi <= len(s)]. *)
Definition slice_to (s : bytes) (hi : Z) : option bytes :=
  if (0 <=? hi) && (hi <=? len s) then Some (firstn (Z.to_nat hi) s) else None.

(** [bytes.Index(s, []byte{c})]: position of the first [c], or -1. *)
Fixpoint IndexByte (s : bytes) (c : byte) : Z :=
  match s with
  | [] => -1
  | b :: rest =>
      if Byte.eqb b c then 0
      else let r := IndexByte rest c in
           if r <? 0 then -1 else r + 1
  end.

(** [bytes.Join(parts, sep)]. *)
Fixpoint Join (parts : list bytes) (sep : bytes) : bytes :=
  match parts with
  | [] => []
  | [p] => p
  | p :: rest => p ++ sep ++ Join rest sep
  end.

(** [append(a, b...)]. *)
Definition append (a b : bytes) : bytes := a ++ b.

End Go.

(** ** A trace-and-panic monad

    A computation records the effects it performed, in order, and either
    returns a value or panics; the effects performed before a panic stay in
    the trace. *)

Module Eff.

Section WithEffect.
Context {E : Type}.

Definition M (A : Type) : Type := (list E * option A)%type.

Definition ret {A} (a : A) : M A := ([], Some a).

Definition bind {A B} (m : M A) (k : A -> M B) : M B :=
  match m with
  | (t, None) => (t, None)
  | (t, Some a) => let (t', r) := k a in (t ++ t', r)
  end.

Definition emit (e : E) : M unit := ([e], Some tt).

Definition panic {A} : M A := ([], None).

(** Lift a partial Go primitive: [None] is a run-time panic. *)
Definition lift {A} (o : option A) : M A := ([], o).

Definition trace {A} (m : M A) : list E := fst m.
Definition value {A} (m : M A) : option A := snd m.
End WithEffect.

Arguments M : clear implicits.

Module Notations.
Notation "x <- m ;; k" := (bind m (fun x => k))
  (at level 61, m at next level, right associativity).
Notation "m ;;; k" := (bind m (fun _ => k))
  (at level 61, right associativity).
End Notations.

End Eff.

(** ** The escape-sequence multiplexer ([stdfds.go]) *)

Module Mux.
Import Go Eff Eff.Notations.

Definition ClearSequence : string :=
  String (ascii_of_nat 27) "c".

Definition EscapeChar : byte := x14.      (* Ctrl+T *)
Definition HelpChar : byte := x3f.        (* '?' *)
Definition QuitChar : byte := x71.        (* 'q' *)
Definition ConfigChar : byte := x63.      (* 'c' *)
Definition DetectBaudChar : byte := x62.  (* 'b' *)
Definition ClearChar : byte := x6c.       (* 'l' *)
Definition CtrlTChar : byte := x74.       (* 't' *)

(** [cmdsHelp].  Go iterates a map in an unspecified order; the model
    iterates in the order of the literal. *)
Definition cmdsHelp : list (byte * string) :=
  [ (HelpChar, "List available key commands"%string);
    (ConfigChar, "Show configuration"%string);
    (DetectBaudChar, "Request baudrate detection (Wi-Se only)"%string);
    (ClearChar, "Clear screen"%string);
    (QuitChar, "Quit"%string);
    (CtrlTChar, "Send ctrl-t key code"%string) ].

(** [ttyc.Implementation]; only the comparison with [ImplementationWiSe]
    is used. *)
Inductive Implementation := ImplementationTtyd | ImplementationWiSe.

Definition is_WiSe (i : Implementation) : bool :=
  match i with ImplementationWiSe => true | _ => false end.

(** The remote terminal configuration returned by [ttyc.GetStty]; its
    fields are pointers, dereferenced by [handleCommand]. *)
Record SttyDTO := {
  Baudrate : option Z;
  Databits : option Z;
  Stopbits : option Z;
  Parity : option string
}.

(** The fields of [stdfdsHandler] that [handleCommand] reads, with the
    answers of the collaborators it calls: the remote address of the
    socket and the outcome of the [GetStty] request. *)
Record stdfdsHandler := {
  implementation : Implementation;
  server : string;
  remoteAddr : string;
  getStty : SttyDTO + string
}.

Inductive arg :=
| AInt (n : Z)
| AStr (s : string)
| AChar (c : byte)
| AErr (e : string).

(** What the multiplexer does to its surroundings. *)
Inductive effect :=
| Println (s : string)                         (* builtin println *)
| Print (s : string)                           (* builtin print *)
| StdoutSync                                   (* os.Stdout.Sync() *)
| TtycPrintf (fmt : string) (args : list arg)
| TtycAngryPrintf (fmt : string) (args : list arg)
| CallGetStty                                  (* ttyc.GetStty(...) *)
| RequestBaudrateDetection                     (* s.client.RequestBaudrateDetection() *)
| ErrSend (e : string)                         (* errChan <- fmt.Errorf(e) *)
| OutSend (data : bytes).                      (* outChan <- data *)

Definition quitting : string := "quitting".

Definition showStty (conf : SttyDTO) : M effect unit :=
  b <- lift (Baudrate conf) ;;
  emit (TtycPrintf " Baudrate: %d\n" [AInt b]) ;;;
  d <- lift (Databits conf) ;;
  emit (TtycPrintf " Databits: %d\n" [AInt d]) ;;;
  emit (TtycPrintf " Flow: soft\n" []) ;;;
  s <- lift (Stopbits conf) ;;
  emit (TtycPrintf " Stopbits: %d\n" [AInt s]) ;;;
  match Parity conf with
  | None => emit (TtycPrintf " Parity: none\n" [])
  | Some p => emit (TtycPrintf " Parity: %s\n" [AStr p])
  end.

Fixpoint printHelp (entries : list (byte * string)) : M effect unit :=
  match entries with
  | [] => ret tt
  | (key, val) :: rest =>
      emit (TtycPrintf " ctrl-t %c   %s\n" [AChar key; AStr val]) ;;;
      printHelp rest
  end.

(** [handleCommand]: runs the key command and returns the bytes to put
    back into the input in its place. *)
Definition handleCommand (s : stdfdsHandler) (command : byte) : M effect bytes :=
  if Byte.eqb command QuitChar then
    emit (Println EmptyString) ;;;
    emit (ErrSend quitting) ;;;
    ret []
  else if Byte.eqb command ConfigChar then
    emit (Println EmptyString) ;;;
    emit (TtycPrintf "Configuration:\n" []) ;;;
    let additionalServerInfo :=
      if String.eqb (server s) EmptyString then EmptyString
      else (" (" ++ server s ++ ")")%string in
    emit (TtycPrintf " Remote server: %s%s\n"
            [AStr (remoteAddr s); AStr additionalServerInfo]) ;;;
    (if is_WiSe (implementation s) then
       emit CallGetStty ;;;
       match getStty s with
       | inl ttyConf => showStty ttyConf
       | inr err =>
           emit (TtycPrintf
                   "Failed to retrieve remote terminal configuration: %v\n"
                   [AErr err])
       end
     else ret tt) ;;;
    ret []
  else if Byte.eqb command DetectBaudChar then
    emit (Println EmptyString) ;;;
    (if is_WiSe (implementation s) then
       emit (TtycPrintf
               "Requesting baud rate detection (it may take up to 10 seconds)\n" []) ;;;
       emit RequestBaudrateDetection
     else
       emit (TtycAngryPrintf "Baud rate detection is only available for Wi-Se" [])) ;;;
    ret []
  else if Byte.eqb command ClearChar then
    emit (Print ClearSequence) ;;;
    emit StdoutSync ;;;
    ret []
  else if Byte.eqb command CtrlTChar then
    ret [EscapeChar]
  else if Byte.eqb command HelpChar then
    emit (Println EmptyString) ;;;
    emit (TtycPrintf "Key commands:\n" []) ;;;
    printHelp cmdsHelp ;;;
    ret []
  else
    ret [].

(** One iteration of the loop of [handleStdin] after a chunk [input] was
    received from [inChan].  The state is the field [expectingCommand];
    the result is its new value.  [outChan <- input] is the effect
    [OutSend]; the [continue] of the lone escape character sends nothing.

    [before := input[:escapePos]] is checked by Go against the capacity
    and [command := input[escapePos]] on the next line against the
    length; no effect happens between the two, so the pair panics exactly
    when [escapePos] is not a valid index, and the panic is attributed
    here to the first of the two. *)
Definition handleStdin_body (s : stdfdsHandler) (expectingCommand : bool)
    (input : bytes) : M effect bool :=
  let escapePos := IndexByte input EscapeChar in
  st <-
    (if expectingCommand then
       c <- lift (index input 0) ;;
       replacement <- handleCommand s c ;;
       rest <- lift (slice_from input 1) ;;
       let input := append replacement rest in
       let escapePos :=
         if 0 <=? escapePos then escapePos + (1 - len replacement)
         else escapePos in
       ret (false, input, escapePos)
     else ret (expectingCommand, input, escapePos)) ;;
  let '(expectingCommand, input, escapePos) := st in
  if (0 <=? escapePos) && (escapePos =? len input - 1) then
    if len input =? 1 then ret true
    else
      input <- lift (slice_to input (len input - 1)) ;;
      emit (OutSend input) ;;;
      ret true
  else if 0 <=? escapePos then
    before <- lift (slice_to input escapePos) ;;
    command <- lift (index input escapePos) ;;
    after <- lift (slice_from input (escapePos + 2)) ;;
    replacement <- handleCommand s command ;;
    emit (OutSend (Join [before; after] replacement)) ;;;
    ret expectingCommand
  else
    emit (OutSend input) ;;;
    ret expectingCommand.

(** What [handleStdin] selects on: the close signal or a chunk. *)
Inductive stdin_event :=
| CloseSignal
| Chunk (input : bytes).

(** [handleStdin]: the loop, over the events it receives.  It returns at
    the close signal; when the events run out the goroutine is left
    waiting in [select], with [expectingCommand] as returned. *)
Fixpoint handleStdin (s : stdfdsHandler) (expectingCommand : bool)
    (events : list stdin_event) : M effect bool :=
  match events with
  | [] => ret expectingCommand
  | CloseSignal :: _ => ret expectingCommand
  | Chunk input :: rest =>
      e <- handleStdin_body s expectingCommand input ;;
      handleStdin s e rest
  end.

(** The chunks forwarded to the engine's input port, in order. *)
Fixpoint forwarded (t : list effect) : list bytes :=
  match t with
  | [] => []
  | OutSend d :: rest => d :: forwarded rest
  | _ :: rest => forwarded rest
  end.

(** The handler side effects: everything but the forwarding. *)
Fixpoint side_effects (t : list effect) : list effect :=
  match t with
  | [] => []
  | OutSend _ :: rest => side_effects rest
  | e :: rest => e :: side_effects rest
  end.

(** How many times the quit sentinel was raised on the error channel. *)
Fixpoint quit_count (t : list effect) : nat :=
  match t with
  | [] => 0
  | ErrSend _ :: rest => S (quit_count rest)
  | _ :: rest => quit_count rest
  end.

End Mux.

(** ** The protocol engine ([ws/protocol.go]) *)

Module Ws.
Import Go Eff Eff.Notations.

(** *** Message tags *)

Definition MsgInput : byte := x30.           (* '0' *)
Definition MsgResizeTerminal : byte := x31.  (* '1' *)
Definition MsgPause : byte := x32.           (* '2' *)
Definition MsgResume : byte := x33.          (* '3' *)
Definition MsgJsonData : byte := x7b.        (* '{' *)
Definition MsgDetectBaudrate : byte := x42.  (* 'B' *)
Definition MsgOutput : byte := x30.          (* '0' *)
Definition MsgSetWindowTitle : byte := x31.  (* '1' *)
Definition MsgPreferences : byte := x32.     (* '2' *)
Definition MsgServerPause : byte := x53.     (* 'S' *)
Definition MsgServerResume : byte := x51.    (* 'Q' *)

(** *** Channels

    What travels on the channels of [Client]: byte slices, [int64]s,
    errors, and the [interface{}] tokens of [pong]. *)
Inductive msg :=
| Bytes (b : bytes)
| Int64 (i : Z)
| Err (e : string)
| Token.

(** Every channel of the client is made by [make(chan T)], without
    capacity: a channel holds no value, and a send completes only when a
    receiver takes the value.  What is left of a channel is whether it is
    nil, open or closed. *)
Inductive chan := ChNil | ChOpen | ChClosed.

Definition nil_chan : chan := ChNil.

(** [make(chan T)]. *)
Definition make_chan : chan := ChOpen.

(** [close(ch)] panics on a nil and on a closed channel. *)
Definition close_chan (ch : chan) : option chan :=
  match ch with
  | ChOpen => Some ChClosed
  | _ => None
  end.

(** The loop [for { select { case <-ch: default: break L } }] run by the
    only goroutine that sends on [ch]: on an open (or nil) channel the
    receive would block, so [default] leaves the loop at once and nothing
    was taken; a receive from a closed channel never blocks, so the loop
    does not end there ([None]). *)
Definition drain_chan (ch : chan) : option unit :=
  match ch with
  | ChClosed => None
  | _ => Some tt
  end.

Inductive chan_name :=
| CWinTitle | CDetectedBaudrate | COutput | CInput | CPong | CError
| CToWs | CFromWs | CShutdown | CCloseChan.

(** *** The client *)

(** A connection returned by the dialer. *)
Definition conn := nat.

(** The fields of [Client] that the engine reads and writes.  The exported
    [WinTitle], [Output], [Input], [DetectedBaudrate], [Error] and
    [CloseChan] are the same channels as the fields below, and [HttpResp]
    is only stored. *)
Record Client := {
  WsClient : option conn;
  winTitle : chan;
  detectedBaudrate : chan;
  output : chan;
  input : chan;
  flowControl : bool;          (* the mutex: [true] when locked *)
  flowControlEngaged : bool;
  pong : chan;
  error : chan;
  toWs : chan;
  fromWs : chan;
  shutdown : chan;
  closeChan : chan;
  isShutdown : bool;
  closed : bool
}.

Definition get_chan (n : chan_name) (c : Client) : chan :=
  match n with
  | CWinTitle => winTitle c
  | CDetectedBaudrate => detectedBaudrate c
  | COutput => output c
  | CInput => input c
  | CPong => pong c
  | CError => error c
  | CToWs => toWs c
  | CFromWs => fromWs c
  | CShutdown => shutdown c
  | CCloseChan => closeChan c
  end.

Definition set_chan (n : chan_name) (ch : chan) (c : Client) : Client :=
  {| WsClient := WsClient c;
     winTitle := match n with CWinTitle => ch | _ => winTitle c end;
     detectedBaudrate :=
       match n with CDetectedBaudrate => ch | _ => detectedBaudrate c end;
     output := match n with COutput => ch | _ => output c end;
     input := match n with CInput => ch | _ => input c end;
     flowControl := flowControl c;
     flowControlEngaged := flowControlEngaged c;
     pong := match n with CPong => ch | _ => pong c end;
     error := match n with CError => ch | _ => error c end;
     toWs := match n with CToWs => ch | _ => toWs c end;
     fromWs := match n with CFromWs => ch | _ => fromWs c end;
     shutdown := match n with CShutdown => ch | _ => shutdown c end;
     closeChan := match n with CCloseChan => ch | _ => closeChan c end;
     isShutdown := isShutdown c;
     closed := closed c |}.

Definition set_WsClient (w : option conn) (c : Client) : Client :=
  {| WsClient := w; winTitle := winTitle c;
     detectedBaudrate := detectedBaudrate c; output := output c;
     input := input c; flowControl := flowControl c;
     flowControlEngaged := flowControlEngaged c; pong := pong c;
     error := error c; toWs := toWs c; fromWs := fromWs c;
     shutdown := shutdown c; closeChan := closeChan c;
     isShutdown := isShutdown c; closed := closed c |}.

Definition set_isShutdown (b : bool) (c : Client) : Client :=
  {| WsClient := WsClient c; winTitle := winTitle c;
     detectedBaudrate := detectedBaudrate c; output := output c;
     input := input c; flowControl := flowControl c;
     flowControlEngaged := flowControlEngaged c; pong := pong c;
     error := error c; toWs := toWs c; fromWs := fromWs c;
     shutdown := shutdown c; closeChan := closeChan c;
     isShutdown := b; closed := closed c |}.

Definition set_closed (b : bool) (c : Client) : Client :=
  {| WsClient := WsClient c; winTitle := winTitle c;
     detectedBaudrate := detectedBaudrate c; output := output c;
     input := input c; flowControl := flowControl c;
     flowControlEngaged := flowControlEngaged c; pong := pong c;
     error := error c; toWs := toWs c; fromWs := fromWs c;
     shutdown := shutdown c; closeChan := closeChan c;
     isShutdown := isShutdown c; closed := b |}.

(** The flow gate: the flag and the mutex, written together. *)
Definition set_gate (engaged locked : bool) (c : Client) : Client :=
  {| WsClient := WsClient c; winTitle := winTitle c;
     detectedBaudrate := detectedBaudrate c; output := output c;
     input := input c; flowControl := locked;
     flowControlEngaged := engaged; pong := pong c;
     error := error c; toWs := toWs c; fromWs := fromWs c;
     shutdown := shutdown c; closeChan := closeChan c;
     isShutdown := isShutdown c; closed := closed c |}.

(** [websocket.BinaryMessage] and [websocket.PingMessage]. *)
Inductive msgType := BinaryMessage | PingMessage.

(** What the engine does to its surroundings. *)
Inductive action :=
| Dial                                     (* dialer.Dial(...) *)
| WsWrite (mt : msgType) (data : bytes)    (* WsClient.WriteMessage(mt, data) *)
| WsClose (w : conn)                       (* WsClient.Close() *)
| ChanClose (n : chan_name)                (* close(ch) *)
| ChanSend (n : chan_name) (v : msg)       (* ch <- v is executed *)
| Delivered (n : chan_name) (v : msg)      (* a receiver took v from ch *)
| Trace                                    (* ttyc.Trace() *)
| TtycAngryPrintf (fmt : string) (e : string).

(** [close(ch)] on a field of the client. *)
Definition close_field (n : chan_name) (c : Client) : M action Client :=
  ch <- lift (close_chan (get_chan n c)) ;;
  emit (ChanClose n) ;;;
  ret (set_chan n ch c).

(** [c.flowControl.Unlock()]: unlocking an unlocked mutex is fatal. *)
Definition unlock_gate (engaged : bool) (c : Client) : M action Client :=
  if flowControl c then ret (set_gate engaged false c) else panic.

(** [doShutdown].  The send [c.error <- err] is its last statement; it
    is recorded as [ChanSend CError], and panics if the channel was
    closed. *)
Definition doShutdown (err : option string) (c : Client) : M action Client :=
  if negb (isShutdown c) then
    c <- close_field CShutdown c ;;
    let c := set_isShutdown true c in
    c <- (if flowControlEngaged c then unlock_gate false c else ret c) ;;
    match err with
    | Some e =>
        match error c with
        | ChClosed => panic
        | _ => emit (ChanSend CError (Err e)) ;;; ret c
        end
    | None => ret c
    end
  else ret c.

(** What the dialer and the first write answer. *)
Inductive dial_outcome :=
| DialFails (e : string)
| DialOk (w : conn) (authErr : option string).

Definition err_redial_closed : string :=
  "not allowed to redial on closed client".

(** [Redial]; [message] is the marshalled [AuthDTO].  Returns the client
    as the method leaves it and the error it returns. *)
Definition Redial (d : dial_outcome) (message : bytes) (c : Client)
  : M action (Client * option string) :=
  if closed c then ret (c, Some err_redial_closed)
  else
    emit Dial ;;;
    match d with
    | DialFails e => emit Trace ;;; ret (c, Some e)
    | DialOk w authErr =>
        emit (WsWrite BinaryMessage message) ;;;
        match authErr with
        | Some e => emit Trace ;;; ret (c, Some e)
        | None =>
            let c := set_WsClient (Some w) c in
            let c := set_chan CShutdown make_chan c in
            let c := set_isShutdown false c in
            ret (c, None)
        end
    end.

(** [DialAndAuth]: the client, or the error of [Redial]. *)
Definition DialAndAuth (d : dial_outcome) (message : bytes)
  : M action (Client + string) :=
  let client :=
    {| WsClient := None;
       winTitle := make_chan;
       detectedBaudrate := make_chan;
       output := make_chan;
       input := make_chan;
       flowControl := false;
       flowControlEngaged := false;
       pong := make_chan;
       error := make_chan;
       toWs := make_chan;
       fromWs := make_chan;
       shutdown := nil_chan;
       closeChan := make_chan;
       isShutdown := true;
       closed := false |} in
  r <- Redial d message client ;;
  match r with
  | (_, Some e) => ret (inr e)
  | (client, None) => ret (inl client)
  end.

Definition err_soft_close : string :=
  "can only soft-close in order to redial if the client is already shut down".

(** [SoftClose]; [closeErr] is what [WsClient.Close()] answers. *)
Definition SoftClose (closeErr : option string) (c : Client)
  : M action (Client * option string) :=
  if negb (isShutdown c) then ret (c, Some err_soft_close)
  else
    w <- lift (WsClient c) ;;
    emit (WsClose w) ;;;
    match closeErr with
    | Some e => emit Trace ;;; ret (c, Some e)
    | None => ret (c, None)
    end.

(** [Close]. *)
Definition Close (closeErr : option string) (c : Client)
  : M action (Client * option string) :=
  c <- doShutdown None c ;;
  if closed c then ret (c, None)
  else
    let c := set_closed true c in
    c <- close_field CCloseChan c ;;
    c <- close_field CWinTitle c ;;
    c <- close_field COutput c ;;
    c <- close_field CInput c ;;
    c <- close_field CError c ;;
    c <- close_field CToWs c ;;
    c <- close_field CFromWs c ;;
    r <- SoftClose closeErr c ;;
    match r with
    | (c, Some e) => emit Trace ;;; ret (c, Some e)
    | (c, None) => ret (c, None)
    end.

(** *** [strconv.ParseInt(s, 10, 64)]

    The standard library's parser, as [chanLoop] calls it: an optional
    sign, then decimal digits only; the value must fit an [int64]. *)

Inductive NumError := ErrSyntax | ErrRange.

Definition maxUint64 : Z := 2 ^ 64 - 1.

(** The digit value of a character in [ParseUint]: letters are digits of
    larger bases, and are refused by [d >= base]. *)
Definition digit_value (c : byte) : option Z :=
  let n := Z.of_N (Byte.to_N c) in
  if (48 <=? n) && (n <=? 57) then Some (n - 48)                 (* '0'..'9' *)
  else if (97 <=? n) && (n <=? 122) then Some (n - 97 + 10)      (* 'a'..'z' *)
  else if (65 <=? n) && (n <=? 90) then Some (n - 65 + 10)       (* 'A'..'Z' *)
  else None.

Fixpoint ParseUint_loop (s : bytes) (n : Z) : Z + NumError :=
  match s with
  | [] => inl n
  | c :: rest =>
      match digit_value c with
      | None => inr ErrSyntax
      | Some d =>
          if d >=? 10 then inr ErrSyntax
          else if n >=? maxUint64 / 10 + 1 then inr ErrRange
          else
            let n := n * 10 in
            let n1 := (n + d) mod 2 ^ 64 in
            if (n1 <? n) || (n1 >? maxUint64) then inr ErrRange
            else ParseUint_loop rest n1
      end
  end.

Definition ParseUint (s : bytes) : Z + NumError :=
  match s with
  | [] => inr ErrSyntax
  | _ => ParseUint_loop s 0
  end.

Definition ParseInt (s : bytes) : Z + NumError :=
  match s with
  | [] => inr ErrSyntax
  | c :: rest =>
      let '(neg, s) :=
        if Byte.eqb c x2b then (false, rest)             (* '+' *)
        else if Byte.eqb c x2d then (true, rest)         (* '-' *)
        else (false, c :: rest) in
      match ParseUint s with
      | inr e => inr e
      | inl un =>
          let cutoff := 2 ^ 63 in
          if negb neg && (un >=? cutoff) then inr ErrRange
          else if neg && (un >? cutoff) then inr ErrRange
          else inl (if neg then - un else un)
      end
  end.

Definition NumError_text (e : NumError) : string :=
  match e with
  | ErrSyntax => "invalid syntax"
  | ErrRange => "value out of range"
  end.

(** *** [chanLoop]

    The goroutine of [chanLoop] is a state machine over the places where
    it can wait.  The other goroutines (the reader, the watchdog, the
    callers of the methods, the readers of the ports) are its
    environment: they show as the events of [step]. *)

Inductive pc :=
| Idle                              (* [chanLoop] is not running *)
| AtSelect                          (* waiting in the [select] *)
| Sending (n : chan_name) (v : msg) (* waiting in [ch <- v] *)
| LockPause                         (* waiting in [Lock()] of [MsgServerPause] *)
| LockWrite (data : bytes)          (* waiting in [Lock()] before the write *)
| Spinning.                         (* in a drain loop that never ends *)

Record sys := {
  cl : Client;
  at_pc : pc
}.

Inductive event :=
| Run                                           (* [Run] enters [chanLoop] *)
| FromWs (data : bytes)                         (* [case data := <-c.fromWs] *)
| ToWs (data : bytes) (werr : option string)    (* [case data := <-c.toWs] *)
| Input (data : bytes) (werr : option string)   (* [case data := <-c.input] *)
| CloseChanReady                                (* [case <-c.closeChan] *)
| ShutdownReady                                 (* [case <-c.shutdown] *)
| Receive (n : chan_name)                       (* a reader takes the value sent on [n] *)
| LockGranted (werr : option string)            (* the pending [Lock()] returns *)
| CallDoShutdown (err : option string)          (* the reader or the watchdog *)
| CallClose (closeErr : option string)
| CallRedial (d : dial_outcome) (message : bytes)
| CallSoftClose (closeErr : option string).

(** The test of [for !c.closed && !c.isShutdown]. *)
Definition loop_head (c : Client) : pc :=
  if negb (closed c) && negb (isShutdown c) then AtSelect else Idle.

(** A receive [<-ch] in a [select] is ready with a value when a sender
    waits on the open channel, and with the zero value when the channel is
    closed. *)
Definition recv_ready (ch : chan) (data : bytes) : bool :=
  match ch with
  | ChOpen => true
  | ChClosed => match data with [] => true | _ => false end
  | ChNil => false
  end.

(** [ch <- v] in [chanLoop]: panics on a closed channel, else waits for a
    reader. *)
Definition send (n : chan_name) (v : msg) (c : Client) : M action sys :=
  match get_chan n c with
  | ChClosed => panic
  | _ => emit (ChanSend n v) ;;; ret {| cl := c; at_pc := Sending n v |}
  end.

Definition continue_loop (c : Client) : M action sys :=
  ret {| cl := c; at_pc := loop_head c |}.

(** [WsClient.WriteMessage(websocket.BinaryMessage, data)] followed by the
    error handling of [chanLoop]: on an error, [doShutdown(err)] and
    return; [doShutdown] waits in its send when it was the first. *)
Definition write_frame (data : bytes) (werr : option string) (c : Client)
  : M action sys :=
  _ <- lift (WsClient c) ;;
  emit (WsWrite BinaryMessage data) ;;;
  match werr with
  | Some e =>
      emit Trace ;;;
      let first := negb (isShutdown c) in
      c <- doShutdown (Some e) c ;;
      ret {| cl := c;
             at_pc := if first then Sending CError (Err e) else Idle |}
  | None => continue_loop c
  end.

(** The write of the [toWs] case, once the mutex is free: lock, write,
    unlock. *)
Definition locked_write (data : bytes) (werr : option string) (c : Client)
  : M action sys :=
  let c := set_gate (flowControlEngaged c) true c in
  _ <- lift (WsClient c) ;;
  emit (WsWrite BinaryMessage data) ;;;
  c <- unlock_gate (flowControlEngaged c) c ;;
  match werr with
  | Some e =>
      emit Trace ;;;
      let first := negb (isShutdown c) in
      c <- doShutdown (Some e) c ;;
      ret {| cl := c;
             at_pc := if first then Sending CError (Err e) else Idle |}
  | None => continue_loop c
  end.

Definition baud_warning : string := "unable to parse detected baudrate: %v\n".

(** The [switch data[0]] of the [fromWs] case, for a non-empty frame. *)
Definition dispatch (tag : byte) (payload : bytes) (c : Client) : M action sys :=
  if Byte.eqb tag MsgOutput then
    send COutput (Bytes payload) c
  else if Byte.eqb tag MsgServerPause then
    if negb (flowControlEngaged c) then
      if flowControl c
      then ret {| cl := set_gate true (flowControl c) c; at_pc := LockPause |}
      else continue_loop (set_gate true true c)
    else continue_loop c
  else if Byte.eqb tag MsgServerResume then
    if flowControlEngaged c then
      c <- unlock_gate false c ;;
      continue_loop c
    else continue_loop c
  else if Byte.eqb tag MsgSetWindowTitle then
    match drain_chan (winTitle c) with
    | None => ret {| cl := c; at_pc := Spinning |}
    | Some _ => send CWinTitle (Bytes payload) c
    end
  else if Byte.eqb tag MsgDetectBaudrate then
    match drain_chan (detectedBaudrate c) with
    | None => ret {| cl := c; at_pc := Spinning |}
    | Some _ =>
        match ParseInt payload with
        | inr err =>
            emit (TtycAngryPrintf baud_warning (NumError_text err)) ;;;
            continue_loop c
        | inl i => send CDetectedBaudrate (Int64 i) c
        end
    end
  else continue_loop c.

(** A goroutine waiting in a send on a channel that [Close] closes
    panics. *)
Definition closes (n : chan_name) : bool :=
  match n with
  | CCloseChan | CWinTitle | COutput | CInput | CError | CToWs | CFromWs => true
  | _ => false
  end.

(** One step of the system; [None] when the event cannot happen in this
    state. *)
Definition step (s : sys) (e : event) : option (M action sys) :=
  let c := cl s in
  match e, at_pc s with
  | Run, Idle => Some (continue_loop c)
  | FromWs data, AtSelect =>
      if recv_ready (fromWs c) data then
        Some match data with
             | [] => continue_loop c
             | tag :: payload => dispatch tag payload c
             end
      else None
  | ToWs data werr, AtSelect =>
      if recv_ready (toWs c) data then
        Some match data with
             | [] => continue_loop c
             | _ =>
                 if flowControl c
                 then ret {| cl := c; at_pc := LockWrite data |}
                 else locked_write data werr c
             end
      else None
  | Input data werr, AtSelect =>
      if recv_ready (input c) data then
        Some match data with
             | [] => continue_loop c
             | _ => write_frame (append [MsgInput] data) werr c
             end
      else None
  | CloseChanReady, AtSelect =>
      match closeChan c with
      | ChClosed => Some (continue_loop c)
      | _ => None
      end
  | ShutdownReady, AtSelect =>
      match shutdown c with
      | ChClosed => Some (continue_loop c)
      | _ => None
      end
  | Receive n, Sending n' v =>
      match n, n' with
      | COutput, COutput | CWinTitle, CWinTitle
      | CDetectedBaudrate, CDetectedBaudrate =>
          Some (emit (Delivered n v) ;;; continue_loop c)
      | CError, CError =>
          Some (emit (Delivered n v) ;;; ret {| cl := c; at_pc := Idle |})
      | _, _ => None
      end
  | LockGranted werr, LockPause =>
      if flowControl c then None
      else Some (continue_loop (set_gate (flowControlEngaged c) true c))
  | LockGranted werr, LockWrite data =>
      if flowControl c then None
      else Some (locked_write data werr c)
  | CallDoShutdown err, p =>
      Some (c <- doShutdown err c ;; ret {| cl := c; at_pc := p |})
  | CallClose closeErr, p =>
      Some (r <- Close closeErr c ;;
            match p with
            | Sending n _ =>
                if closes n && negb (closed c) then panic
                else ret {| cl := fst r; at_pc := p |}
            | _ => ret {| cl := fst r; at_pc := p |}
            end)
  | CallRedial d message, p =>
      Some (r <- Redial d message c ;; ret {| cl := fst r; at_pc := p |})
  | CallSoftClose closeErr, p =>
      Some (r <- SoftClose closeErr c ;; ret {| cl := fst r; at_pc := p |})
  | _, _ => None
  end.

(** A run of the system over a list of events. *)
Fixpoint run (s : sys) (events : list event) : option (M action sys) :=
  match events with
  | [] => Some (ret s)
  | e :: rest =>
      match step s e with
      | None => None
      | Some (t, None) => Some (t, None)
      | Some (t, Some s') =>
          match run s' rest with
          | None => None
          | Some (t', r) => Some (t ++ t', r)
          end
      end
  end.

(** *** [watchdog]

    Instants and durations are nanoseconds.  A [time.Duration] is an
    [int64], with its wrap-around; an instant is a reading of the
    monotonic clock.  The model of the clock is the ideal one: a timer
    made by [time.After(d)] fires [d] after the reading of [time.Now()]
    it was computed from (at once when [d <= 0]), the two readings taken
    on entering the [select] are the instant at which the previous
    iteration ended, and [select] takes the case that is ready first. *)

Definition wrap64 (z : Z) : Z := (z + 2 ^ 63) mod 2 ^ 64 - 2 ^ 63.

Definition Second : Z := 1000000000.

(** [t.Add(d)]. *)
Definition Add (t d : Z) : Z := t + d.

(** [t.Sub(u)]: the difference, saturated to the range of a duration. *)
Definition Sub (t u : Z) : Z :=
  Z.max (- 2 ^ 63) (Z.min (2 ^ 63 - 1) (t - u)).

Definition pingDuration (interval : Z) : Z := wrap64 (interval * Second).

Definition timeoutDuration (interval : Z) : Z :=
  wrap64 (wrap64 (interval + 1) * Second).

(** The local variables of [watchdog], and the instant at which it entered
    the [select] it is waiting in. *)
Record wd := {
  nextPing : Z;
  nextTimeout : Z;
  entered : Z
}.

(** The statements before the loop; [t0] and [t1] are the two readings of
    [time.Now()]. *)
Definition watchdog_start (interval t0 t1 : Z) : wd :=
  {| nextPing := Add t0 (pingDuration interval);
     nextTimeout :=
       Add t1 (wrap64 (timeoutDuration interval + pingDuration interval));
     entered := t1 |}.

(** When the timer [time.After(deadline.Sub(time.Now()))] fires. *)
Definition fires (w : wd) (deadline : Z) : Z :=
  entered w + Z.max 0 (Sub deadline (entered w)).

Inductive wd_event :=
| PingTimer (after : Z) (werr : option string)
    (* the first timer fires; [after] is the reading of [time.Now()]
       after the write of the ping, [werr] what the write answers *)
| TimeoutTimer                  (* the second timer fires *)
| Pong (now : Z)                (* [case <-c.pong], at instant [now] *)
| WdCloseChan (now : Z)         (* [case <-c.closeChan] *)
| WdShutdown (now : Z).         (* [case <-c.shutdown] *)

(** Whether [select] can take the case of [e]: it is ready, and no timer
    fired before. *)
Definition wd_enabled (c : Client) (w : wd) (e : wd_event) : bool :=
  let tp := fires w (nextPing w) in
  let tt := fires w (nextTimeout w) in
  let before_timers now := (entered w <=? now) && (now <=? Z.min tp tt) in
  match e with
  | PingTimer after _ => (tp <=? tt) && (tp <=? after)
  | TimeoutTimer => tt <=? tp
  | Pong now => before_timers now
  | WdCloseChan now =>
      match closeChan c with ChClosed => before_timers now | _ => false end
  | WdShutdown now =>
      match shutdown c with ChClosed => before_timers now | _ => false end
  end.

Definition not_responding : string := "server is not responding, closing".

(** What an effect of the watchdog is stamped with: the instant at which
    the case was taken. *)
Definition stamp {A} (t : Z) (m : M action A) : M (Z * action) A :=
  (map (pair t) (fst m), snd m).

(** The body of the [select] for the case of [e]; [None] for the
    variables when the function returns. *)
Definition watchdog_body (interval : Z) (c : Client) (w : wd) (e : wd_event)
  : M (Z * action) (Client * option wd) :=
  match e with
  | PingTimer after werr =>
      stamp (fires w (nextPing w))
        (_ <- lift (WsClient c) ;;
         emit (WsWrite PingMessage []) ;;;
         match werr with
         | Some err =>
             emit Trace ;;;
             c <- doShutdown (Some err) c ;;
             ret (c, None)
         | None =>
             ret (c, Some {| nextPing := Add after (pingDuration interval);
                             nextTimeout := nextTimeout w;
                             entered := after |})
         end)
  | TimeoutTimer =>
      stamp (fires w (nextTimeout w))
        (emit Trace ;;;
         c <- doShutdown (Some not_responding) c ;;
         ret (c, None))
  | Pong now =>
      ret (c, Some {| nextPing := nextPing w;
                      nextTimeout := Add now (timeoutDuration interval);
                      entered := now |})
  | WdCloseChan now =>
      ret (c, Some {| nextPing := nextPing w;
                      nextTimeout := nextTimeout w;
                      entered := now |})
  | WdShutdown now => ret (c, None)
  end.

(** The loop of [watchdog] over the cases its [select] takes.  [None]
    when the events are not a possible run: a case that cannot be taken,
    or an event after the function returned. *)
Fixpoint watchdog_loop (interval : Z) (c : Client) (w : wd)
    (events : list wd_event) : option (M (Z * action) (Client * option wd)) :=
  if negb (closed c) && negb (isShutdown c) then
    match events with
    | [] => Some (ret (c, Some w))
    | e :: rest =>
        if wd_enabled c w e then
          match watchdog_body interval c w e with
          | (t, None) => Some (t, None)
          | (t, Some (c', None)) =>
              match rest with
              | [] => Some (t, Some (c', None))
              | _ => None
              end
          | (t, Some (c', Some w')) =>
              match watchdog_loop interval c' w' rest with
              | None => None
              | Some (t', r) => Some (t ++ t', r)
              end
          end
        else None
    end
  else
    match events with
    | [] => Some (ret (c, None))
    | _ => None
    end.

(** [watchdog(interval)], started at instant [start]. *)
Definition watchdog (interval start : Z) (c : Client) (events : list wd_event)
  : option (M (Z * action) (Client * option wd)) :=
  watchdog_loop interval c (watchdog_start interval start start) events.

(** The instants at which an error was sent on the error port. *)
Fixpoint error_sends_at (t : list (Z * action)) : list (Z * string) :=
  match t with
  | [] => []
  | (i, ChanSend CError (Err e)) :: rest => (i, e) :: error_sends_at rest
  | _ :: rest => error_sends_at rest
  end.

(** A peer that never acknowledges, and a socket that takes the pings at
    once: only the timers fire, every write of a ping succeeds and returns
    at the instant it was made. *)
Fixpoint silent (interval : Z) (w : wd) (events : list wd_event) : Prop :=
  match events with
  | [] => True
  | PingTimer after None :: rest =>
      after = fires w (nextPing w) /\
      silent interval
        {| nextPing := Add after (pingDuration interval);
           nextTimeout := nextTimeout w;
           entered := after |} rest
  | TimeoutTimer :: rest => True
  | _ => False
  end.

End Ws.

(** ** Facts about the multiplexer *)

Module MuxFacts.
Import Go Eff Eff.Notations Mux.

Lemma len_nonneg (s : bytes) : 0 <= len s.
Proof. unfold len. lia. Qed.

Lemma len_cons (b : byte) (s : bytes) : len (b :: s) = len s + 1.
Proof. unfold len. cbn [List.length]. lia. Qed.

Lemma len_app (a b : bytes) : len (a ++ b) = len a + len b.
Proof. unfold len. rewrite length_app. lia. Qed.

Lemma byte_eqb_eq (a b : byte) : Byte.eqb a b = true <-> a = b.
Proof.
  split.
  - apply Byte.byte_dec_bl.
  - apply Byte.byte_dec_lb.
Qed.

Lemma byte_eqb_neq (a b : byte) : a <> b -> Byte.eqb a b = false.
Proof.
  intros H. destruct (Byte.eqb a b) eqn:E; [|reflexivity].
  apply byte_eqb_eq in E. contradiction.
Qed.

Lemma IndexByte_bounds (s : bytes) (c : byte) :
  -1 <= IndexByte s c < len s.
Proof.
  induction s as [|b s IH]; cbn [IndexByte].
  - unfold len; simpl; lia.
  - rewrite len_cons. destruct (Byte.eqb b c).
    + pose proof (len_nonneg s). lia.
    + destruct (IndexByte s c <? 0) eqn:E.
      * pose proof (len_nonneg s). lia.
      * apply Z.ltb_ge in E. lia.
Qed.

(** A chunk without the byte: [bytes.Index] answers -1. *)
Lemma IndexByte_absent (s : bytes) (c : byte) :
  ~ In c s -> IndexByte s c = -1.
Proof.
  induction s as [|b s IH]; intros H; cbn [IndexByte]; [reflexivity|].
  rewrite byte_eqb_neq by (intros ->; apply H; left; reflexivity).
  rewrite IH by (intros Hin; apply H; right; exact Hin).
  reflexivity.
Qed.

(** The first occurrence is found where it is. *)
Lemma IndexByte_first (before rest : bytes) (c : byte) :
  ~ In c before -> IndexByte (before ++ c :: rest) c = len before.
Proof.
  induction before as [|b before IH]; intros H; cbn [IndexByte app].
  - replace (Byte.eqb c c) with true by (symmetry; apply byte_eqb_eq; reflexivity).
    reflexivity.
  - rewrite byte_eqb_neq by (intros ->; apply H; left; reflexivity).
    rewrite IH by (intros Hin; apply H; right; exact Hin).
    rewrite len_cons. pose proof (len_nonneg before).
    destruct (len before <? 0) eqn:E; [apply Z.ltb_lt in E; lia | reflexivity].
Qed.

Lemma slice_to_app (a b : bytes) : slice_to (a ++ b) (len a) = Some a.
Proof.
  unfold slice_to. rewrite len_app.
  pose proof (len_nonneg a). pose proof (len_nonneg b).
  replace (0 <=? len a) with true by (symmetry; apply Z.leb_le; lia).
  replace (len a <=? len a + len b) with true by (symmetry; apply Z.leb_le; lia).
  cbn [andb]. unfold len. rewrite Nat2Z.id.
  rewrite firstn_app, firstn_all, Nat.sub_diag. cbn [firstn].
  rewrite app_nil_r. reflexivity.
Qed.

Lemma slice_from_app (a b : bytes) : slice_from (a ++ b) (len a) = Some b.
Proof.
  unfold slice_from. rewrite len_app.
  pose proof (len_nonneg a). pose proof (len_nonneg b).
  replace (0 <=? len a) with true by (symmetry; apply Z.leb_le; lia).
  replace (len a <=? len a + len b) with true by (symmetry; apply Z.leb_le; lia).
  cbn [andb]. unfold len. rewrite Nat2Z.id.
  rewrite skipn_app, skipn_all, Nat.sub_diag. reflexivity.
Qed.

Lemma index_app (a : bytes) (x : byte) (b : bytes) :
  index (a ++ x :: b) (len a) = Some x.
Proof.
  unfold index. rewrite len_app, len_cons.
  pose proof (len_nonneg a). pose proof (len_nonneg b).
  replace (0 <=? len a) with true by (symmetry; apply Z.leb_le; lia).
  replace (len a <? len a + (len b + 1)) with true by (symmetry; apply Z.ltb_lt; lia).
  cbn [andb]. unfold len. rewrite Nat2Z.id.
  rewrite nth_error_app2 by lia. rewrite Nat.sub_diag. reflexivity.
Qed.

(** The escape character is no key command. *)
Lemma handleCommand_EscapeChar (s : stdfdsHandler) :
  handleCommand s EscapeChar = ret [].
Proof. reflexivity. Qed.

(** A handler to run the multiplexer on: a ttyd server, no side channel. *)
Definition plain_handler : stdfdsHandler :=
  {| implementation := ImplementationTtyd;
     server := EmptyString;
     remoteAddr := "192.0.2.1:7681";
     getStty := inr "unavailable"%string |}.

(** The bytes forwarded by a run, whatever the chunks they came in. *)
Definition forwarded_bytes {A} (m : M effect A) : bytes :=
  List.concat (forwarded (trace m)).

(** Split-trigger equivalence, as the specification words it: the two
    reads and the single read forward the same bytes and have the same
    handler side effects. *)
Definition split_equivalent (s : stdfdsHandler) (prefix : bytes) (cmd : byte)
    (suffix : bytes) : Prop :=
  let two := handleStdin s false
               [Chunk (prefix ++ [EscapeChar]); Chunk (cmd :: suffix)] in
  let one := handleStdin s false
               [Chunk (prefix ++ EscapeChar :: cmd :: suffix)] in
  forwarded_bytes two = forwarded_bytes one /\
  side_effects (trace two) = side_effects (trace one).

(** The pending command as the specification words it: the first byte is
    handled, its substitution is spliced in, and the spliced chunk is then
    scanned as a chunk read in Normal state is. *)
Definition splice_then_scan (s : stdfdsHandler) (input : bytes) : M effect bool :=
  c <- lift (index input 0) ;;
  replacement <- handleCommand s c ;;
  rest <- lift (slice_from input 1) ;;
  handleStdin_body s false (append replacement rest).

(** C8. A non-empty chunk without the escape character, read in Normal
    state, is forwarded as it is: one send of the chunk, no handler side
    effect, and the state stays Normal. *)
Theorem pass_through (s : stdfdsHandler) (input : bytes) :
  input <> [] ->
  ~ In EscapeChar input ->
  handleStdin_body s false input = ([OutSend input], Some false) /\
  forwarded (trace (handleStdin_body s false input)) = [input] /\
  side_effects (trace (handleStdin_body s false input)) = [].
Proof.
  intros _ Habsent.
  assert (E : handleStdin_body s false input = ([OutSend input], Some false)).
  { unfold handleStdin_body. rewrite (IndexByte_absent _ _ Habsent).
    reflexivity. }
  rewrite E. repeat split.
Qed.

Lemma pass_through_witness :
  handleStdin_body plain_handler false [x68; x69]
    = ([OutSend [x68; x69]], Some false) /\
  forwarded (trace (handleStdin_body plain_handler false [x68; x69]))
    = [[x68; x69]] /\
  side_effects (trace (handleStdin_body plain_handler false [x68; x69])) = [].
Proof.
  apply (pass_through plain_handler [x68; x69]).
  - discriminate.
  - cbv. intros [H|[H|[]]]; discriminate H.
Defined.

(** In Normal state, with the escape character before the last position,
    the handler is called with [input[escapePos]], which is the escape
    character itself: whatever the byte after it, nothing is run, and the
    chunk is forwarded without the two bytes. *)
Lemma inline_command_byte_ignored (s : stdfdsHandler)
    (before : bytes) (cmd : byte) (after : bytes) :
  ~ In EscapeChar before ->
  handleStdin_body s false (before ++ EscapeChar :: cmd :: after)
    = ([OutSend (before ++ after)], Some false).
Proof.
  intros Habsent. unfold handleStdin_body.
  rewrite (IndexByte_first _ _ _ Habsent).
  cbn [bind ret fst snd].
  pose proof (len_nonneg before) as Hb. pose proof (len_nonneg after) as Ha.
  replace (0 <=? len before) with true by (symmetry; apply Z.leb_le; lia).
  replace (len before =? len (before ++ EscapeChar :: cmd :: after) - 1)
    with false
    by (symmetry; apply Z.eqb_neq; rewrite len_app, !len_cons; lia).
  cbn [andb].
  rewrite slice_to_app, index_app.
  replace (before ++ EscapeChar :: cmd :: after)
    with ((before ++ [EscapeChar; cmd]) ++ after)
    by (rewrite <- app_assoc; reflexivity).
  replace (len before + 2) with (len (before ++ [EscapeChar; cmd]))
    by (rewrite len_app, !len_cons; unfold len; simpl; lia).
  rewrite slice_from_app.
  unfold lift. cbn [bind].
  rewrite handleCommand_EscapeChar.
  cbn. reflexivity.
Qed.

(** C2, on the code: the chunk "hi", Ctrl+T, 'q' read in Normal state
    forwards "hi", and the quit sentinel is never raised: the handler was
    called with the escape character, not with 'q'. *)
Theorem hi_escape_q_does_not_quit (s : stdfdsHandler) :
  handleStdin s false [Chunk [x68; x69; EscapeChar; QuitChar]]
    = ([OutSend [x68; x69]], Some false) /\
  quit_count (trace (handleStdin s false
                       [Chunk [x68; x69; EscapeChar; QuitChar]])) = 0%nat.
Proof.
  assert (E : handleStdin s false [Chunk [x68; x69; EscapeChar; QuitChar]]
              = ([OutSend [x68; x69]], Some false)).
  { assert (Habsent : ~ In EscapeChar [x68; x69])
      by (cbv; intros [H|[H|[]]]; discriminate H).
    pose proof (inline_command_byte_ignored s [x68; x69] QuitChar [] Habsent)
      as Hbody.
    cbn [app] in Hbody. cbn [handleStdin]. rewrite Hbody. reflexivity. }
  rewrite E. split; reflexivity.
Qed.

(** C3, as stated, fails on Ctrl+T read alone and then 't', 'q': the two
    reads forward Ctrl+T and 'q', the single read forwards 'q' alone; and
    the pending command is not handled by splicing and then scanning the
    spliced chunk, which would take the Ctrl+T put back by 't' for a new
    escape. *)
Lemma split_trigger_counterexample :
  ~ split_equivalent plain_handler [] CtrlTChar [QuitChar] /\
  handleStdin_body plain_handler true [CtrlTChar; QuitChar]
    = ([OutSend [EscapeChar; QuitChar]], Some false) /\
  handleStdin_body plain_handler true [CtrlTChar; QuitChar]
    <> splice_then_scan plain_handler [CtrlTChar; QuitChar].
Proof.
  split; [|split].
  - intros [H _]. vm_compute in H. discriminate H.
  - reflexivity.
  - intros H. vm_compute in H. discriminate H.
Qed.

Lemma escape_at_end (s : stdfdsHandler) (prefix : bytes) :
  ~ In EscapeChar prefix ->
  handleStdin_body s false (prefix ++ [EscapeChar])
    = (match prefix with [] => [] | _ => [OutSend prefix] end, Some true).
Proof.
  intros Habsent. unfold handleStdin_body.
  rewrite (IndexByte_first _ _ _ Habsent).
  cbn [bind ret fst snd].
  pose proof (len_nonneg prefix) as Hp.
  replace (0 <=? len prefix) with true by (symmetry; apply Z.leb_le; lia).
  replace (len prefix =? len (prefix ++ [EscapeChar]) - 1) with true
    by (symmetry; apply Z.eqb_eq; rewrite len_app, len_cons; unfold len; simpl; lia).
  cbn [andb].
  destruct prefix as [|b prefix].
  - reflexivity.
  - replace (len ((b :: prefix) ++ [EscapeChar]) =? 1) with false
      by (symmetry; apply Z.eqb_neq; rewrite len_app, !len_cons;
          pose proof (len_nonneg prefix); unfold len; simpl; lia).
    replace (len ((b :: prefix) ++ [EscapeChar]) - 1) with (len (b :: prefix))
      by (rewrite len_app, !len_cons; unfold len; simpl; lia).
    rewrite slice_to_app. reflexivity.
Qed.

Lemma pending_without_escape (s : stdfdsHandler) (cmd : byte) (suffix : bytes) :
  ~ In EscapeChar (cmd :: suffix) ->
  handleStdin_body s true (cmd :: suffix)
    = (replacement <- handleCommand s cmd ;;
       emit (OutSend (replacement ++ suffix)) ;;;
       ret false).
Proof.
  intros Habsent. unfold handleStdin_body.
  rewrite (IndexByte_absent _ _ Habsent).
  change (index (cmd :: suffix) 0) with (Some cmd).
  assert (Hs : slice_from (cmd :: suffix) 1 = Some suffix).
  { unfold slice_from. rewrite len_cons. pose proof (len_nonneg suffix).
    replace (1 <=? len suffix + 1) with true by (symmetry; apply Z.leb_le; lia).
    reflexivity. }
  rewrite Hs. unfold lift, append. cbn [bind].
  destruct (handleCommand s cmd) as [t [replacement|]]; [|reflexivity].
  cbn. rewrite app_nil_r. reflexivity.
Qed.

(** C3, amended.  Ctrl+T at the end of a chunk and the command byte at the
    start of the next, with no other Ctrl+T in either: the first read
    forwards the prefix (nothing when there is none), the second runs the
    handler of the command byte once and forwards its substitution followed
    by the suffix, and the state is Normal again.  The escape character was
    looked for in the second chunk as it was read, so what the handler puts
    back is forwarded as data.  When the byte is no key command, the single
    read of the same bytes forwards the same bytes, with the same side
    effects: none. *)
Theorem split_trigger_two_reads (s : stdfdsHandler)
    (prefix : bytes) (cmd : byte) (suffix : bytes) :
  ~ In EscapeChar prefix ->
  ~ In EscapeChar (cmd :: suffix) ->
  handleStdin s false [Chunk (prefix ++ [EscapeChar]); Chunk (cmd :: suffix)]
    = (match prefix with
       | [] => ret tt
       | _ => emit (OutSend prefix)
       end ;;;
       replacement <- handleCommand s cmd ;;
       emit (OutSend (replacement ++ suffix)) ;;;
       ret false) /\
  (handleCommand s cmd = ret [] -> split_equivalent s prefix cmd suffix).
Proof.
  intros Hp Hs.
  assert (Htwo :
    handleStdin s false [Chunk (prefix ++ [EscapeChar]); Chunk (cmd :: suffix)]
      = (match prefix with
         | [] => ret tt
         | _ => emit (OutSend prefix)
         end ;;;
         replacement <- handleCommand s cmd ;;
         emit (OutSend (replacement ++ suffix)) ;;;
         ret false)).
  { cbn [handleStdin].
    rewrite (escape_at_end s prefix Hp).
    destruct prefix as [|b prefix]; cbn [bind ret emit fst snd app].
    - rewrite (pending_without_escape s cmd suffix Hs).
      destruct (handleCommand s cmd) as [t [replacement|]]; cbn; [|reflexivity].
      rewrite !app_nil_r. reflexivity.
    - rewrite (pending_without_escape s cmd suffix Hs).
      destruct (handleCommand s cmd) as [t [replacement|]]; cbn; [|reflexivity].
      rewrite !app_nil_r. reflexivity. }
  split; [exact Htwo|].
  intros Hnone. unfold split_equivalent. cbv zeta. rewrite Htwo, Hnone.
  cbn [handleStdin]. rewrite (inline_command_byte_ignored s prefix cmd suffix Hp).
  destruct prefix as [|b prefix]; cbn; rewrite ?app_nil_r; split; reflexivity.
Qed.

Lemma split_trigger_two_reads_witness :
  handleStdin plain_handler false
    [Chunk ([x68; x69] ++ [EscapeChar]); Chunk (CtrlTChar :: [x71])]
    = ([OutSend [x68; x69]; OutSend [EscapeChar; x71]], Some false) /\
  split_equivalent plain_handler [x68; x69] x78 [x71].
Proof.
  assert (Hhi : ~ In EscapeChar [x68; x69])
    by (cbv; intros [H|[H|[]]]; discriminate H).
  assert (Htq : ~ In EscapeChar [CtrlTChar; x71])
    by (cbv; intros [H|[H|[]]]; discriminate H).
  assert (Hxq : ~ In EscapeChar [x78; x71])
    by (cbv; intros [H|[H|[]]]; discriminate H).
  split.
  - exact (proj1 (split_trigger_two_reads plain_handler [x68; x69]
                    CtrlTChar [x71] Hhi Htq)).
  - exact (proj2 (split_trigger_two_reads plain_handler [x68; x69]
                    x78 [x71] Hhi Hxq) eq_refl).
Defined.

(** C10, on the code: Ctrl+T read alone and then Ctrl+T read alone.  The
    pending command is Ctrl+T, its substitution is empty, the position of
    the escape found before the splice is moved from 0 to 1, and the now
    empty chunk is indexed at 1: the goroutine panics. *)
Theorem double_escape_panics (s : stdfdsHandler) :
  handleStdin s false [Chunk [EscapeChar]; Chunk [EscapeChar]] = ([], None) /\
  handleStdin_body s true [EscapeChar] = ([], None).
Proof. split; reflexivity. Qed.

End MuxFacts.

(** ** Facts about the protocol engine *)

Module WsFacts.
Import Go Eff Eff.Notations Ws.

(** What holds of the client between two calls of its methods: the mutex
    of the flow gate is locked exactly when the gate is engaged; there is
    a connection; an epoch that is not shut down has an open shutdown
    channel and belongs to a client that is not closed; the channels of a
    client that is not closed are open. *)
Definition Inv (c : Client) : Prop :=
  flowControl c = flowControlEngaged c /\
  WsClient c <> None /\
  (isShutdown c = false -> shutdown c = ChOpen /\ closed c = false) /\
  (closed c = false ->
     closeChan c = ChOpen /\ winTitle c = ChOpen /\ output c = ChOpen /\
     input c = ChOpen /\ error c = ChOpen /\ toWs c = ChOpen /\
     fromWs c = ChOpen) /\
  detectedBaudrate c = ChOpen.

(** The client that [DialAndAuth] returns when the dial and the
    authentication succeed. *)
Definition dialed (w : conn) : Client :=
  {| WsClient := Some w;
     winTitle := ChOpen;
     detectedBaudrate := ChOpen;
     output := ChOpen;
     input := ChOpen;
     flowControl := false;
     flowControlEngaged := false;
     pong := ChOpen;
     error := ChOpen;
     toWs := ChOpen;
     fromWs := ChOpen;
     shutdown := ChOpen;
     closeChan := ChOpen;
     isShutdown := false;
     closed := false |}.

Lemma DialAndAuth_ok (w : conn) (message : bytes) :
  DialAndAuth (DialOk w None) message
    = ([Dial; WsWrite BinaryMessage message], Some (inl (dialed w))).
Proof. reflexivity. Qed.

Ltac split_inv :=
  unfold Inv; cbn;
  repeat match goal with
         | |- _ /\ _ => split
         | |- _ -> _ => intro
         end;
  try reflexivity; try discriminate; try congruence.

Lemma dialed_Inv (w : conn) : Inv (dialed w).
Proof. split_inv. Qed.

(** The errors sent on the error port. *)
Fixpoint error_sends (t : list action) : list string :=
  match t with
  | [] => []
  | ChanSend CError (Err e) :: rest => e :: error_sends rest
  | _ :: rest => error_sends rest
  end.

Lemma error_sends_app (t u : list action) :
  error_sends (t ++ u) = error_sends t ++ error_sends u.
Proof.
  induction t as [|a t IH]; [reflexivity|].
  destruct a as [| | | |n v| | |]; cbn [app error_sends]; try exact IH.
  destruct n; try exact IH.
  destruct v; try exact IH.
  cbn. rewrite IH. reflexivity.
Qed.

(** Calls of [doShutdown], one after the other. *)
Fixpoint doShutdowns (errs : list (option string)) (c : Client)
  : M action Client :=
  match errs with
  | [] => ret c
  | err :: rest => c <- doShutdown err c ;; doShutdowns rest c
  end.

(** A call in an epoch that is shut down does nothing. *)
Lemma doShutdown_again (err : option string) (c : Client) :
  isShutdown c = true -> doShutdown err c = ([], Some c).
Proof. intros H. unfold doShutdown. rewrite H. reflexivity. Qed.

Lemma doShutdowns_again (errs : list (option string)) (c : Client) :
  isShutdown c = true -> doShutdowns errs c = ([], Some c).
Proof.
  intros H. induction errs as [|err errs IH]; [reflexivity|].
  cbn [doShutdowns]. rewrite (doShutdown_again err c H). cbn [bind].
  rewrite IH. reflexivity.
Qed.

(** The first call of an epoch. *)
Lemma doShutdown_first (err : option string) (c : Client) :
  Inv c ->
  isShutdown c = false ->
  doShutdown err c
    = (ChanClose CShutdown ::
         match err with Some e => [ChanSend CError (Err e)] | None => [] end,
       Some (set_gate false false
               (set_isShutdown true (set_chan CShutdown ChClosed c)))).
Proof.
  intros (Hgate & _ & Hepoch & Hopen & _) Hs.
  destruct (Hepoch Hs) as [Hsd Hcl]. destruct (Hopen Hcl) as (_ & _ & _ & _ & He & _).
  destruct c as [ws wt db out inp fc fce pg er tw fw sd cc isd cld].
  cbn in *. subst.
  destruct fce, err; reflexivity.
Qed.

Lemma doShutdown_Inv (err : option string) (c c' : Client) (t : list action) :
  Inv c -> doShutdown err c = (t, Some c') -> Inv c'.
Proof.
  intros HI H. destruct (isShutdown c) eqn:Hs.
  - rewrite (doShutdown_again err c Hs) in H. inversion H; subst. exact HI.
  - rewrite (doShutdown_first err c HI Hs) in H. inversion H; subst.
    destruct HI as (Hgate & Hws & Hepoch & Hopen & Hdb).
    destruct c as [ws wt db out inp fc fce pg er tw fw sd cc isd cld].
    cbn in *. split_inv.
    all: cbn in *; try (apply Hopen; assumption).
Qed.

(** C5. Soft shutdown is idempotent per epoch.  The first call closes the
    shutdown channel, which is what the loops of the epoch wait on, marks
    the epoch shut down, leaves the flow gate disengaged and its mutex
    free, changes nothing else in the client, and sends the error on the
    error port once when there is one and not at all when there is none;
    any later call changes nothing, closes nothing and sends nothing;
    whatever the calls made in an epoch, at most one error is sent on the
    error port. *)
Theorem soft_shutdown_idempotent (c : Client) (err : option string) :
  Inv c ->
  isShutdown c = false ->
  exists t c1,
    doShutdown err c = (t, Some c1) /\
    t = ChanClose CShutdown ::
          match err with Some e => [ChanSend CError (Err e)] | None => [] end /\
    c1 = set_gate false false
           (set_isShutdown true (set_chan CShutdown ChClosed c)) /\
    shutdown c1 = ChClosed /\
    isShutdown c1 = true /\
    flowControlEngaged c1 = false /\
    flowControl c1 = false /\
    error_sends t = match err with Some e => [e] | None => [] end /\
    (forall err2, doShutdown err2 c1 = ([], Some c1)) /\
    (forall errs,
        exists t',
          doShutdowns (err :: errs) c = (t', Some c1) /\
          t' = t /\
          error_sends t' = error_sends t /\
          (List.length (error_sends t') <= 1)%nat).
Proof.
  intros HI Hs. eexists. eexists.
  split; [exact (doShutdown_first err c HI Hs)|].
  split; [reflexivity|]. split; [reflexivity|].
  split; [destruct c; reflexivity|].
  split; [reflexivity|]. split; [reflexivity|]. split; [reflexivity|].
  split; [destruct err; reflexivity|].
  split; [intros err2; apply doShutdown_again; reflexivity|].
  intros errs. cbn [doShutdowns].
  rewrite (doShutdown_first err c HI Hs). cbn [bind].
  rewrite doShutdowns_again by reflexivity.
  eexists. split; [reflexivity|].
  rewrite app_nil_r. split; [reflexivity|]. split; [reflexivity|].
  destruct err; cbn; lia.
Qed.

Lemma soft_shutdown_idempotent_witness :
  exists t c1,
    doShutdown (Some "read failed"%string)
               (set_gate true true (dialed 1%nat)) = (t, Some c1) /\
    t = [ChanClose CShutdown; ChanSend CError (Err "read failed")] /\
    c1 = set_gate false false
           (set_isShutdown true
              (set_chan CShutdown ChClosed (set_gate true true (dialed 1%nat)))) /\
    shutdown c1 = ChClosed /\
    isShutdown c1 = true /\
    flowControlEngaged c1 = false /\
    flowControl c1 = false /\
    error_sends t = ["read failed"%string] /\
    (forall err2, doShutdown err2 c1 = ([], Some c1)) /\
    (forall errs,
        exists t',
          doShutdowns (Some "read failed"%string :: errs)
                      (set_gate true true (dialed 1%nat)) = (t', Some c1) /\
          t' = t /\
          error_sends t' = error_sends t /\
          (List.length (error_sends t') <= 1)%nat).
Proof.
  apply (soft_shutdown_idempotent (set_gate true true (dialed 1%nat))
           (Some "read failed"%string)).
  - split_inv.
  - reflexivity.
Defined.

(** [Close] on a client that is closed and shut down: nothing is closed,
    nothing is sent, [nil] is returned. *)
Lemma Close_again (closeErr : option string) (c : Client) :
  closed c = true -> isShutdown c = true ->
  Close closeErr c = ([], Some (c, None)).
Proof.
  intros Hc Hs. unfold Close. rewrite (doShutdown_again None c Hs).
  cbn [bind]. rewrite Hc. reflexivity.
Qed.

(** [Close] on a client in a state left by the methods: it returns, and
    leaves the client closed and shut down. *)
Lemma Close_first (closeErr : option string) (c : Client) :
  Inv c ->
  exists t c1,
    Close closeErr c = (t, Some (c1, if closed c then None else closeErr)) /\
    closed c1 = true /\ isShutdown c1 = true /\ Inv c1.
Proof.
  intros HI. destruct (isShutdown c) eqn:Hs.
  - destruct (closed c) eqn:Hc.
    + exists [], c. rewrite (Close_again closeErr c Hc Hs). auto.
    + destruct HI as (Hgate & Hws & Hepoch & Hopen & Hdb).
      destruct (Hopen Hc) as (H1 & H2 & H3 & H4 & H5 & H6 & H7).
      destruct c as [ws wt db out inp fc fce pg er tw fw sd cc isd cld].
      cbn in *. subst. destruct ws as [w|]; [|congruence].
      destruct closeErr; cbv; eexists; eexists;
      (split; [reflexivity|split; [reflexivity|split; [reflexivity|]]]);
      repeat split; intros; congruence.
  - pose proof HI as (Hgate & Hws & Hepoch & Hopen & Hdb).
    destruct (Hepoch Hs) as [Hsd Hc].
    destruct (Hopen Hc) as (H1 & H2 & H3 & H4 & H5 & H6 & H7).
    unfold Close. rewrite (doShutdown_first None c HI Hs). cbn [bind].
    destruct c as [ws wt db out inp fc fce pg er tw fw sd cc isd cld].
    cbn in *. subst. destruct ws as [w|]; [|congruence].
    destruct closeErr; cbv; eexists; eexists;
      (split; [reflexivity|split; [reflexivity|split; [reflexivity|]]]);
      repeat split; intros; congruence.
Qed.

(** C6. Hard close is idempotent for the life of the client: after a first
    [Close], every later [Close] finds the client closed, closes no
    channel and no connection, and returns [nil]; [Redial] on a closed
    client returns an error without dialing; [SoftClose] on a client that
    is not shut down returns an error without closing the connection. *)
Theorem hard_close_idempotent (c : Client) (closeErr : option string) :
  Inv c ->
  (exists t c1 r1,
      Close closeErr c = (t, Some (c1, r1)) /\
      closed c1 = true /\
      (forall closeErr2, Close closeErr2 c1 = ([], Some (c1, None))) /\
      (forall d message,
          Redial d message c1 = ([], Some (c1, Some err_redial_closed)))) /\
  (forall c' d message,
      closed c' = true ->
      Redial d message c' = ([], Some (c', Some err_redial_closed))) /\
  (forall c' closeErr',
      isShutdown c' = false ->
      SoftClose closeErr' c' = ([], Some (c', Some err_soft_close))).
Proof.
  intros HI.
  assert (HR : forall c' d message,
             closed c' = true ->
             Redial d message c' = ([], Some (c', Some err_redial_closed))).
  { intros c' d message Hc. unfold Redial. rewrite Hc. reflexivity. }
  split; [|split].
  - destruct (Close_first closeErr c HI) as (t & c1 & HC & Hc1 & Hs1 & _).
    exists t, c1. eexists. split; [exact HC|]. split; [exact Hc1|].
    split.
    + intros closeErr2. apply Close_again; assumption.
    + intros d message. apply HR. exact Hc1.
  - exact HR.
  - intros c' closeErr' Hs. unfold SoftClose. rewrite Hs. reflexivity.
Qed.

Lemma hard_close_idempotent_witness :
  (exists t c1 r1,
      Close None (dialed 1%nat) = (t, Some (c1, r1)) /\
      closed c1 = true /\
      (forall closeErr2, Close closeErr2 c1 = ([], Some (c1, None))) /\
      (forall d message,
          Redial d message c1 = ([], Some (c1, Some err_redial_closed)))) /\
  (forall c' d message,
      closed c' = true ->
      Redial d message c' = ([], Some (c', Some err_redial_closed))) /\
  (forall c' closeErr',
      isShutdown c' = false ->
      SoftClose closeErr' c' = ([], Some (c', Some err_soft_close))).
Proof.
  apply (hard_close_idempotent (dialed 1%nat) None).
  split_inv.
Defined.

(** *** The states the system reaches *)

(** From a successful [DialAndAuth], by the steps of [Ws.step]. *)
Inductive reachable : sys -> Prop :=
| reach_dial d message t c :
    DialAndAuth d message = (t, Some (inl c)) ->
    reachable {| cl := c; at_pc := Idle |}
| reach_step s e t s' :
    reachable s ->
    step s e = Some (t, Some s') ->
    reachable s'.

Definition SysInv (s : sys) : Prop :=
  Inv (cl s) /\ at_pc s <> LockPause.

Lemma bind_Some {E A B} (m : M E A) (k : A -> M E B) t b :
  bind m k = (t, Some b) ->
  exists t1 a t2, m = (t1, Some a) /\ k a = (t2, Some b) /\ t = t1 ++ t2.
Proof.
  unfold bind. destruct m as [t1 [a|]]; [|discriminate].
  destruct (k a) as [t2 r] eqn:Hk. intros H. inversion H; subst.
  exists t1, a, t2. auto.
Qed.

Lemma Some_inj {A} (a b : A) : Some a = Some b -> a = b.
Proof. intros H. inversion H. reflexivity. Qed.

Lemma loop_head_not_LockPause (c : Client) : loop_head c <> LockPause.
Proof. unfold loop_head. destruct (negb (closed c) && negb (isShutdown c)); discriminate. Qed.

Lemma continue_loop_SysInv (c : Client) t s' :
  Inv c -> continue_loop c = (t, Some s') -> SysInv s'.
Proof.
  intros HI H. inversion H; subst. split; [exact HI|].
  apply loop_head_not_LockPause.
Qed.

Lemma send_SysInv n v (c : Client) t s' :
  Inv c -> send n v c = (t, Some s') -> SysInv s'.
Proof.
  intros HI H. unfold send in H.
  destruct (get_chan n c); inversion H; subst; split; try exact HI; discriminate.
Qed.

Lemma set_gate_Inv (b : bool) (c : Client) : Inv c -> Inv (set_gate b b c).
Proof.
  intros (Hgate & Hws & Hepoch & Hopen & Hdb).
  unfold Inv. cbn. auto.
Qed.

Lemma set_gate_same (c : Client) :
  set_gate (flowControlEngaged c) (flowControl c) c = c.
Proof. destruct c; reflexivity. Qed.

Lemma shutdown_after_write_SysInv (e : string) (c : Client) t s' :
  Inv c ->
  (c' <- doShutdown (Some e) c ;;
   ret {| cl := c';
          at_pc := if negb (isShutdown c) then Sending CError (Err e) else Idle |})
    = (t, Some s') ->
  SysInv s'.
Proof.
  intros HI H. apply bind_Some in H. destruct H as (t1 & c' & t2 & Hd & Hr & _).
  inversion Hr; subst. split.
  - exact (doShutdown_Inv _ _ _ _ HI Hd).
  - cbn. destruct (negb (isShutdown c)); discriminate.
Qed.

Lemma write_frame_SysInv data werr (c : Client) t s' :
  Inv c -> write_frame data werr c = (t, Some s') -> SysInv s'.
Proof.
  intros HI H. unfold write_frame in H.
  destruct (WsClient c) as [w|]; [|discriminate]. cbn [lift bind] in H.
  destruct werr as [e|].
  - cbn [emit bind] in H.
    destruct (c' <- doShutdown (Some e) c ;;
              ret {| cl := c';
                     at_pc := if negb (isShutdown c)
                              then Sending CError (Err e) else Idle |})
      as [t0 r] eqn:Hd.
    cbn in H. destruct r as [s0|]; [|discriminate].
    inversion H; subst. exact (shutdown_after_write_SysInv e c t0 s' HI Hd).
  - cbn in H. inversion H; subst. split; [exact HI|apply loop_head_not_LockPause].
Qed.

Lemma locked_write_SysInv data werr (c : Client) t s' :
  Inv c -> flowControl c = false ->
  locked_write data werr c = (t, Some s') -> SysInv s'.
Proof.
  intros HI Hf H. unfold locked_write in H.
  assert (Hc : unlock_gate (flowControlEngaged (set_gate (flowControlEngaged c) true c))
                 (set_gate (flowControlEngaged c) true c) = ([], Some c)).
  { unfold unlock_gate. destruct c; cbn in *; subst; reflexivity. }
  cbn [WsClient set_gate] in H.
  destruct (WsClient c) as [w|] eqn:Hw; [|discriminate]. cbn [lift bind] in H.
  cbn [emit bind] in H. rewrite Hc in H. cbn [bind] in H.
  destruct werr as [e|].
  - cbn [emit bind] in H.
    destruct (c' <- doShutdown (Some e) c ;;
              ret {| cl := c';
                     at_pc := if negb (isShutdown c)
                              then Sending CError (Err e) else Idle |})
      as [t0 r] eqn:Hd.
    cbn in H. destruct r as [s0|]; [|discriminate].
    inversion H; subst. exact (shutdown_after_write_SysInv e c t0 s' HI Hd).
  - cbn in H. inversion H; subst. split; [exact HI|apply loop_head_not_LockPause].
Qed.

Lemma dispatch_SysInv tag payload (c : Client) t s' :
  Inv c -> dispatch tag payload c = (t, Some s') -> SysInv s'.
Proof.
  intros HI H. unfold dispatch in H.
  destruct (Byte.eqb tag MsgOutput); [exact (send_SysInv _ _ _ _ _ HI H)|].
  destruct (Byte.eqb tag MsgServerPause).
  { destruct (flowControlEngaged c) eqn:He; cbn [negb] in H.
    - exact (continue_loop_SysInv _ _ _ HI H).
    - destruct HI as (Hgate & HI'). rewrite Hgate, He in H.
      apply (continue_loop_SysInv (set_gate true true c) t s'); [|exact H].
      apply set_gate_Inv. split; assumption. }
  destruct (Byte.eqb tag MsgServerResume).
  { destruct (flowControlEngaged c) eqn:He.
    - unfold unlock_gate in H. pose proof HI as (Hgate & HI').
      rewrite Hgate, He in H. cbn [bind ret] in H.
      apply (continue_loop_SysInv (set_gate false false c) t s').
      + apply set_gate_Inv. exact HI.
      + cbn. exact H.
    - exact (continue_loop_SysInv _ _ _ HI H). }
  destruct (Byte.eqb tag MsgSetWindowTitle).
  { destruct (drain_chan (winTitle c)).
    - exact (send_SysInv _ _ _ _ _ HI H).
    - inversion H; subst. split; [exact HI|discriminate]. }
  destruct (Byte.eqb tag MsgDetectBaudrate).
  { destruct (drain_chan (detectedBaudrate c)).
    - destruct (ParseInt payload).
      + exact (send_SysInv _ _ _ _ _ HI H).
      + cbn in H. inversion H; subst.
        split; [exact HI|apply loop_head_not_LockPause].
    - inversion H; subst. split; [exact HI|discriminate]. }
  exact (continue_loop_SysInv _ _ _ HI H).
Qed.

Lemma Redial_Inv d message (c : Client) t c' r :
  Inv c -> Redial d message c = (t, Some (c', r)) -> Inv c'.
Proof.
  intros HI H. unfold Redial in H.
  destruct (closed c) eqn:Hc; [inversion H; subst; exact HI|].
  destruct d as [e|w [e|]]; cbn in H; inversion H; subst; try exact HI.
  destruct HI as (Hgate & Hws & Hepoch & Hopen & Hdb).
  unfold Inv. cbn. repeat split; auto; try discriminate; apply Hopen; exact Hc.
Qed.

Lemma SoftClose_same closeErr (c : Client) t c' r :
  SoftClose closeErr c = (t, Some (c', r)) -> c' = c.
Proof.
  unfold SoftClose. destruct (negb (isShutdown c)); [intros H; inversion H; reflexivity|].
  destruct (WsClient c); [|discriminate].
  destruct closeErr; cbn; intros H; inversion H; reflexivity.
Qed.

Lemma Close_Inv closeErr (c : Client) t c' r :
  Inv c -> Close closeErr c = (t, Some (c', r)) -> Inv c'.
Proof.
  intros HI H. destruct (Close_first closeErr c HI) as (t1 & c1 & HC & _ & _ & HI1).
  rewrite HC in H. inversion H; subst. exact HI1.
Qed.

(** The invariant is kept by every step. *)
Lemma step_SysInv (s : sys) (e : event) t s' :
  SysInv s -> step s e = Some (t, Some s') -> SysInv s'.
Proof.
  intros [HI Hpc] H. destruct s as [c p]. cbn [cl at_pc] in *.
  destruct e.
  - (* Run *)
    destruct p; cbn in H; try discriminate.
    inversion H; subst. split; [exact HI|apply loop_head_not_LockPause].
  - (* FromWs *)
    destruct p; cbn [step cl at_pc] in H; try discriminate.
    destruct (recv_ready (fromWs c) data); [|discriminate].
    apply Some_inj in H; rename H into H'. destruct data as [|tag payload].
    + exact (continue_loop_SysInv _ _ _ HI H').
    + exact (dispatch_SysInv _ _ _ _ _ HI H').
  - (* ToWs *)
    destruct p; cbn [step cl at_pc] in H; try discriminate.
    destruct (recv_ready (toWs c) data); [|discriminate].
    apply Some_inj in H; rename H into H'. destruct data as [|b data].
    + exact (continue_loop_SysInv _ _ _ HI H').
    + destruct (flowControl c) eqn:Hf.
      * inversion H'; subst. split; [exact HI|discriminate].
      * exact (locked_write_SysInv _ _ _ _ _ HI Hf H').
  - (* Input *)
    destruct p; cbn [step cl at_pc] in H; try discriminate.
    destruct (recv_ready (input c) data); [|discriminate].
    apply Some_inj in H; rename H into H'. destruct data as [|b data].
    + exact (continue_loop_SysInv _ _ _ HI H').
    + exact (write_frame_SysInv _ _ _ _ _ HI H').
  - (* CloseChanReady *)
    destruct p; cbn [step cl at_pc] in H; try discriminate.
    destruct (closeChan c); try discriminate.
    apply Some_inj in H; rename H into H'. exact (continue_loop_SysInv _ _ _ HI H').
  - (* ShutdownReady *)
    destruct p; cbn [step cl at_pc] in H; try discriminate.
    destruct (shutdown c); try discriminate.
    apply Some_inj in H; rename H into H'. exact (continue_loop_SysInv _ _ _ HI H').
  - (* Receive *)
    destruct p; cbn [step cl at_pc] in H; try discriminate.
    destruct n, n0; try discriminate; inversion H; subst;
      (split; [exact HI|cbn; try apply loop_head_not_LockPause; discriminate]).
  - (* LockGranted *)
    destruct p; cbn [step cl at_pc] in H; try discriminate.
    + congruence.
    + destruct (flowControl c) eqn:Hf; [discriminate|].
      apply Some_inj in H; rename H into H'. exact (locked_write_SysInv _ _ _ _ _ HI Hf H').
  - (* CallDoShutdown *)
    assert (H' : (c0 <- doShutdown err c ;; ret {| cl := c0; at_pc := p |})
                 = (t, Some s')) by (destruct p; cbn in H; inversion H; reflexivity).
    apply bind_Some in H'. destruct H' as (t1 & c1 & t2 & Hd & Hr & _).
    inversion Hr; subst. split; [exact (doShutdown_Inv _ _ _ _ HI Hd)|exact Hpc].
  - (* CallClose *)
    assert (H' : exists r, Close closeErr c = (fst r, Some (snd r))
                           /\ cl s' = fst (snd r) /\ at_pc s' = p).
    { destruct (Close closeErr c) as [t1 [r|]] eqn:HC.
      - exists (t1, r). split; [reflexivity|].
        destruct p; cbn in H; rewrite HC in H; cbn in H;
          try (inversion H; subst; split; reflexivity).
        destruct (closes n && negb (closed c)); cbn in H;
          inversion H; subst; split; reflexivity.
      - destruct p; cbn in H; rewrite HC in H; cbn in H; discriminate. }
    destruct H' as ([t1 [c1 r1]] & HC & Hcl & Hp). cbn in *.
    split; [|rewrite Hp; exact Hpc].
    rewrite Hcl. exact (Close_Inv _ _ _ _ _ HI HC).
  - (* CallRedial *)
    assert (H' : (r <- Redial d message c ;; ret {| cl := fst r; at_pc := p |})
                 = (t, Some s')) by (destruct p; cbn in H; inversion H; reflexivity).
    apply bind_Some in H'. destruct H' as (t1 & [c1 r1] & t2 & Hd & Hr & _).
    inversion Hr; subst. split; [exact (Redial_Inv _ _ _ _ _ _ HI Hd)|exact Hpc].
  - (* CallSoftClose *)
    assert (H' : (r <- SoftClose closeErr c ;; ret {| cl := fst r; at_pc := p |})
                 = (t, Some s')) by (destruct p; cbn in H; inversion H; reflexivity).
    apply bind_Some in H'. destruct H' as (t1 & [c1 r1] & t2 & Hd & Hr & _).
    inversion Hr; subst. cbn.
    rewrite (SoftClose_same _ _ _ _ _ Hd). split; [exact HI|exact Hpc].
Qed.

(** Every state the system reaches satisfies the invariant. *)
Lemma reachable_SysInv (s : sys) : reachable s -> SysInv s.
Proof.
  induction 1 as [d message t c Hd|s e t s' Hr IH Hs].
  - split; [|discriminate]. cbn.
    unfold DialAndAuth in Hd. apply bind_Some in Hd.
    destruct Hd as (t1 & [c1 r1] & t2 & HR & Hm & _).
    destruct r1; inversion Hm; subst.
    unfold Redial in HR. cbn in HR.
    destruct d as [e|w [e|]]; cbn in HR; inversion HR; subst.
    apply dialed_Inv.
  - exact (step_SysInv s e t s' IH Hs).
Qed.

(** A run is a chain of steps. *)
Lemma run_reachable (events : list event) (s s' : sys) t :
  reachable s -> run s events = Some (t, Some s') -> reachable s'.
Proof.
  revert s t. induction events as [|e events IH]; intros s t Hr H.
  - cbn in H. inversion H; subst. exact Hr.
  - cbn [run] in H. destruct (step s e) as [[t1 [s1|]]|] eqn:Hs; try discriminate.
    destruct (run s1 events) as [[t2 r]|] eqn:Hrun; [|discriminate].
    inversion H; subst.
    apply (IH s1 t2); [|exact Hrun].
    exact (reach_step s e t1 s1 Hr Hs).
Qed.

(** The system after [DialAndAuth] succeeded and [Run] was called. *)
Definition running (w : conn) : sys :=
  {| cl := dialed w; at_pc := AtSelect |}.

Lemma running_reachable (w : conn) : reachable (running w).
Proof.
  apply (reach_step {| cl := dialed w; at_pc := Idle |} Run [] (running w)).
  - exact (reach_dial (DialOk w None) [] _ _ (DialAndAuth_ok w [])).
  - reflexivity.
Qed.

(** ASCII text as bytes. *)
Definition text (s : string) : bytes := list_byte_of_string s.

(** *** [ParseInt] reads decimal numerals *)

(** The character of a decimal digit. *)
Definition digit_char (d : Z) : byte :=
  match d with
  | 0 => x30 | 1 => x31 | 2 => x32 | 3 => x33 | 4 => x34
  | 5 => x35 | 6 => x36 | 7 => x37 | 8 => x38 | _ => x39
  end.

(** The number written by the digits [ds] after the number [n]. *)
Definition decimal (n : Z) (ds : list Z) : Z :=
  fold_left (fun a d => a * 10 + d) ds n.

Definition is_digit (d : Z) : Prop := 0 <= d <= 9.

Lemma digit_cases (d : Z) :
  is_digit d ->
  d = 0 \/ d = 1 \/ d = 2 \/ d = 3 \/ d = 4 \/
  d = 5 \/ d = 6 \/ d = 7 \/ d = 8 \/ d = 9.
Proof. unfold is_digit. lia. Qed.

Lemma digit_value_char (d : Z) :
  is_digit d -> digit_value (digit_char d) = Some d.
Proof.
  intros H. destruct (digit_cases d H)
    as [->|[->|[->|[->|[->|[->|[->|[->|[->| ->]]]]]]]]]; reflexivity.
Qed.

Lemma digit_char_no_sign (d : Z) :
  is_digit d ->
  Byte.eqb (digit_char d) x2b = false /\ Byte.eqb (digit_char d) x2d = false.
Proof.
  intros H. destruct (digit_cases d H)
    as [->|[->|[->|[->|[->|[->|[->|[->|[->| ->]]]]]]]]]; split; reflexivity.
Qed.

Lemma geb_false (a b : Z) : a < b -> (a >=? b) = false.
Proof. intros H. rewrite Z.geb_leb. apply Z.leb_gt. exact H. Qed.

Lemma gtb_false (a b : Z) : a <= b -> (a >? b) = false.
Proof. intros H. rewrite Z.gtb_ltb. apply Z.ltb_ge. exact H. Qed.

Lemma decimal_grows (ds : list Z) :
  forall n, 0 <= n -> Forall is_digit ds -> n <= decimal n ds.
Proof.
  induction ds as [|d ds IH]; intros n Hn Hds; cbn [decimal fold_left]; [lia|].
  inversion Hds as [|? ? Hd Hds']; subst. unfold is_digit in Hd.
  specialize (IH (n * 10 + d) ltac:(lia) Hds'). unfold decimal in IH. lia.
Qed.

Lemma ParseUint_loop_decimal (ds : list Z) :
  forall n,
    0 <= n ->
    Forall is_digit ds ->
    decimal n ds <= maxUint64 ->
    ParseUint_loop (map digit_char ds) n = inl (decimal n ds).
Proof.
  induction ds as [|d ds IH]; intros n Hn Hds Hmax; [reflexivity|].
  inversion Hds as [|? ? Hd Hds']; subst.
  cbn [map ParseUint_loop decimal fold_left] in *.
  rewrite (digit_value_char d Hd).
  pose proof Hd as Hd'. unfold is_digit in Hd'.
  assert (Hge : n * 10 + d <= decimal (n * 10 + d) ds)
    by (apply decimal_grows; [lia|exact Hds']).
  unfold decimal in Hge. unfold maxUint64 in *.
  rewrite (geb_false d 10) by lia.
  rewrite (geb_false n ((2 ^ 64 - 1) / 10 + 1))
    by (change ((2 ^ 64 - 1) / 10 + 1) with 1844674407370955162; lia).
  rewrite Z.mod_small by lia.
  replace (n * 10 + d <? n * 10) with false by (symmetry; apply Z.ltb_ge; lia).
  rewrite (gtb_false (n * 10 + d) (2 ^ 64 - 1)) by lia.
  cbn [orb]. apply IH; [lia|exact Hds'|exact Hmax].
Qed.

(** A non-empty string of decimal digits that writes a number below
    [2 ^ 63] parses to that number. *)
Lemma ParseInt_decimal (ds : list Z) :
  ds <> [] ->
  Forall is_digit ds ->
  decimal 0 ds < 2 ^ 63 ->
  ParseInt (map digit_char ds) = inl (decimal 0 ds).
Proof.
  intros Hne Hds Hmax. destruct ds as [|d ds]; [congruence|].
  inversion Hds as [|? ? Hd Hds']; subst.
  cbn [map]. unfold ParseInt.
  destruct (digit_char_no_sign d Hd) as [-> ->].
  unfold ParseUint.
  change (digit_char d :: map digit_char ds) with (map digit_char (d :: ds)).
  rewrite ParseUint_loop_decimal by (try assumption; unfold maxUint64; lia).
  cbn [negb andb].
  rewrite (geb_false (decimal 0 (d :: ds)) (2 ^ 63)) by lia.
  reflexivity.
Qed.

(** C9. A detected-baudrate frame that arrives while the loop waits in its
    [select]: when the payload parses as a decimal [int64], that value is
    sent on the baud port and a reader of the port receives it; when it
    does not parse, a warning is printed and nothing else happens: the
    client is as it was, and no shutdown was made.  A payload of decimal
    digits parses to the number they write; the forms with two values
    separated by a space or a comma do not parse. *)
Theorem detected_baudrate_frame (s : sys) (payload : bytes) :
  reachable s ->
  at_pc s = AtSelect ->
  closed (cl s) = false ->
  match ParseInt payload with
  | inl i =>
      step s (FromWs (MsgDetectBaudrate :: payload))
        = Some ([ChanSend CDetectedBaudrate (Int64 i)],
                Some {| cl := cl s;
                        at_pc := Sending CDetectedBaudrate (Int64 i) |}) /\
      step {| cl := cl s; at_pc := Sending CDetectedBaudrate (Int64 i) |}
           (Receive CDetectedBaudrate)
        = Some ([Delivered CDetectedBaudrate (Int64 i)],
                Some {| cl := cl s; at_pc := loop_head (cl s) |})
  | inr err =>
      step s (FromWs (MsgDetectBaudrate :: payload))
        = Some ([TtycAngryPrintf baud_warning (NumError_text err)],
                Some {| cl := cl s; at_pc := loop_head (cl s) |})
  end /\
  (forall ds,
      ds <> [] -> Forall is_digit ds -> decimal 0 ds < 2 ^ 63 ->
      ParseInt (map digit_char ds) = inl (decimal 0 ds)) /\
  ParseInt (text "9600 9615") = inr ErrSyntax /\
  ParseInt (text "9600,9615") = inr ErrSyntax.
Proof.
  intros Hr Hpc Hc.
  destruct (reachable_SysInv s Hr) as [(Hgate & Hws & Hepoch & Hopen & Hdb) _].
  destruct (Hopen Hc) as (_ & _ & _ & _ & _ & _ & Hfrom).
  destruct s as [c p]. cbn [cl at_pc] in *. subst p.
  split; [|split; [exact ParseInt_decimal|split; reflexivity]].
  cbn [step cl at_pc]. rewrite Hfrom. cbn [recv_ready].
  unfold dispatch. cbn [Byte.eqb MsgDetectBaudrate MsgOutput MsgServerPause
                          MsgServerResume MsgSetWindowTitle].
  change (Byte.eqb MsgDetectBaudrate MsgOutput) with false.
  change (Byte.eqb MsgDetectBaudrate MsgServerPause) with false.
  change (Byte.eqb MsgDetectBaudrate MsgServerResume) with false.
  change (Byte.eqb MsgDetectBaudrate MsgSetWindowTitle) with false.
  change (Byte.eqb MsgDetectBaudrate MsgDetectBaudrate) with true.
  cbv iota. rewrite Hdb. cbn [drain_chan].
  destruct (ParseInt payload) as [i|err].
  - unfold send. cbn [get_chan]. rewrite Hdb. split; reflexivity.
  - reflexivity.
Qed.

Lemma detected_baudrate_frame_witness :
  (step (running 1%nat) (FromWs (MsgDetectBaudrate :: text "115200"))
     = Some ([ChanSend CDetectedBaudrate (Int64 115200)],
             Some {| cl := cl (running 1%nat);
                     at_pc := Sending CDetectedBaudrate (Int64 115200) |}) /\
   step {| cl := cl (running 1%nat);
           at_pc := Sending CDetectedBaudrate (Int64 115200) |}
        (Receive CDetectedBaudrate)
     = Some ([Delivered CDetectedBaudrate (Int64 115200)],
             Some {| cl := cl (running 1%nat);
                     at_pc := loop_head (cl (running 1%nat)) |})) /\
  (forall ds,
      ds <> [] -> Forall is_digit ds -> decimal 0 ds < 2 ^ 63 ->
      ParseInt (map digit_char ds) = inl (decimal 0 ds)) /\
  ParseInt (text "9600 9615") = inr ErrSyntax /\
  ParseInt (text "9600,9615") = inr ErrSyntax.
Proof.
  exact (detected_baudrate_frame (running 1%nat) (text "115200")
           (running_reachable 1%nat) eq_refl eq_refl).
Defined.

(** The control queue keeps the gate discipline: while the gate is engaged
    a frame taken from [toWs] is not written, the loop waits for the
    mutex. *)
Lemma control_frame_waits_for_gate (s : sys) (data : bytes) (werr : option string) :
  reachable s ->
  at_pc s = AtSelect ->
  closed (cl s) = false ->
  flowControlEngaged (cl s) = true ->
  data <> [] ->
  step s (ToWs data werr)
    = Some ([], Some {| cl := cl s; at_pc := LockWrite data |}).
Proof.
  intros Hr Hpc Hc He Hd.
  destruct (reachable_SysInv s Hr) as [(Hgate & Hws & Hepoch & Hopen & Hdb) _].
  destruct (Hopen Hc) as (_ & _ & _ & _ & _ & Hto & _).
  destruct s as [c p]. cbn [cl at_pc] in *. subst p.
  cbn [step cl at_pc]. rewrite Hto. cbn [recv_ready].
  destruct data as [|b data]; [congruence|].
  rewrite Hgate, He. reflexivity.
Qed.

(** The input port does not: in the same states, a chunk taken from
    [input] is written to the socket at once, and the gate is still
    engaged afterwards. *)
Lemma input_frame_ignores_gate (s : sys) (data : bytes) :
  reachable s ->
  at_pc s = AtSelect ->
  closed (cl s) = false ->
  flowControlEngaged (cl s) = true ->
  data <> [] ->
  step s (Input data None)
    = Some ([WsWrite BinaryMessage (MsgInput :: data)],
            Some {| cl := cl s; at_pc := loop_head (cl s) |}).
Proof.
  intros Hr Hpc Hc He Hd.
  destruct (reachable_SysInv s Hr) as [(Hgate & Hws & Hepoch & Hopen & Hdb) _].
  destruct (Hopen Hc) as (_ & _ & _ & Hin & _).
  destruct s as [c p]. cbn [cl at_pc] in *. subst p.
  cbn [step cl at_pc]. rewrite Hin. cbn [recv_ready].
  destruct data as [|b data]; [congruence|].
  unfold write_frame. destruct (WsClient c) as [w|]; [|congruence].
  reflexivity.
Qed.

(** While the loop waits in a send, no frame is taken from the reader
    goroutine. *)
Lemma no_frame_taken_while_sending (c : Client) (n : chan_name) (v : msg)
    (data : bytes) :
  step {| cl := c; at_pc := Sending n v |} (FromWs data) = None.
Proof. reflexivity. Qed.

(** C1, on the code: the server engages the flow gate, then the user
    types a byte.  The frame of the input port is written to the socket
    while the gate is engaged, the mutex was not asked for; a frame of the
    control queue in the same state waits for the mutex. *)
Theorem input_written_while_gate_engaged (w : conn) :
  exists s1,
    run (running w) [FromWs [MsgServerPause]] = Some ([], Some s1) /\
    reachable s1 /\
    flowControlEngaged (cl s1) = true /\
    step s1 (Input [x61] None)
      = Some ([WsWrite BinaryMessage [MsgInput; x61]], Some s1) /\
    step s1 (ToWs [MsgPause] None)
      = Some ([], Some {| cl := cl s1; at_pc := LockWrite [MsgPause] |}).
Proof.
  eexists. split; [reflexivity|].
  split.
  - apply (run_reachable [FromWs [MsgServerPause]] (running w) _ []).
    + apply running_reachable.
    + reflexivity.
  - repeat split.
Qed.

(** C4, on the code: two window-title frames and no reader.  The loop
    waits in the send of the first title; the second frame cannot be taken
    from the reader goroutine before a reader of the port took the first
    title, and what that reader receives is the first title, then the
    second. *)
Theorem first_title_is_delivered_first (w : conn) :
  let first := MsgSetWindowTitle :: text "A" in
  let second := MsgSetWindowTitle :: text "B" in
  exists s1,
    run (running w) [FromWs first]
      = Some ([ChanSend CWinTitle (Bytes (text "A"))], Some s1) /\
    at_pc s1 = Sending CWinTitle (Bytes (text "A")) /\
    step s1 (FromWs second) = None /\
    run (running w) [FromWs first; FromWs second] = None /\
    run (running w) [FromWs first; Receive CWinTitle;
                     FromWs second; Receive CWinTitle]
      = Some ([ChanSend CWinTitle (Bytes (text "A"));
               Delivered CWinTitle (Bytes (text "A"));
               ChanSend CWinTitle (Bytes (text "B"));
               Delivered CWinTitle (Bytes (text "B"))],
              Some (running w)).
Proof.
  cbv zeta. eexists. split; [reflexivity|]. repeat split.
Qed.

(** *** The watchdog *)

Lemma wrap64_small (z : Z) : - 2 ^ 63 <= z < 2 ^ 63 -> wrap64 z = z.
Proof.
  intros H. unfold wrap64. rewrite Z.mod_small by lia. lia.
Qed.

Section Watchdog.
Variables (interval start : Z).
Hypothesis interval_pos : 0 < interval.
Hypothesis interval_small : (2 * interval + 1) * Second < 2 ^ 63.

Let deadline : Z := start + (2 * interval + 1) * Second.

Lemma pingDuration_small : pingDuration interval = interval * Second.
Proof.
  unfold pingDuration. apply wrap64_small.
  clear deadline. unfold Second in *. lia.
Qed.

Lemma timeoutDuration_small :
  timeoutDuration interval = (interval + 1) * Second.
Proof.
  unfold timeoutDuration. clear deadline.
  rewrite (wrap64_small (interval + 1)) by (unfold Second in *; lia).
  apply wrap64_small. unfold Second in *. lia.
Qed.

Lemma watchdog_start_small :
  watchdog_start interval start start
    = {| nextPing := start + interval * Second;
         nextTimeout := deadline;
         entered := start |}.
Proof.
  unfold watchdog_start, Add, deadline.
  rewrite pingDuration_small, timeoutDuration_small.
  rewrite wrap64_small by (unfold Second in *; lia).
  f_equal. lia.
Qed.

Lemma fires_after_entering (w : wd) (d : Z) : entered w <= fires w d.
Proof. unfold fires. lia. Qed.

Lemma fires_at_deadline (w : wd) (d : Z) :
  entered w <= d -> d - entered w < 2 ^ 63 -> fires w d = d.
Proof. intros H1 H2. unfold fires, Sub. lia. Qed.

Variable c : Client.
Hypothesis c_Inv : Inv c.
Hypothesis c_live : isShutdown c = false.

Lemma c_open : closed c = false.
Proof. destruct c_Inv as (_ & _ & Hepoch & _). apply Hepoch. exact c_live. Qed.

Lemma c_connected : exists w, WsClient c = Some w.
Proof.
  destruct c_Inv as (_ & Hws & _).
  destruct (WsClient c) as [w|]; [exists w; reflexivity|congruence].
Qed.

Definition shut_down : Client :=
  set_gate false false (set_isShutdown true (set_chan CShutdown ChClosed c)).

(** The second timer, taken: the shutdown, with its error. *)
Lemma timeout_body (w : wd) :
  watchdog_body interval c w TimeoutTimer
    = ([(fires w (nextTimeout w), Trace);
        (fires w (nextTimeout w), ChanClose CShutdown);
        (fires w (nextTimeout w), ChanSend CError (Err not_responding))],
       Some (shut_down, None)).
Proof.
  unfold watchdog_body. cbn [emit bind].
  rewrite (doShutdown_first (Some not_responding) c c_Inv c_live).
  reflexivity.
Qed.

(** The first timer, taken, the write succeeding. *)
Lemma ping_body (w : wd) (after : Z) :
  watchdog_body interval c w (PingTimer after None)
    = ([(fires w (nextPing w), WsWrite PingMessage [])],
       Some (c, Some {| nextPing := Add after (pingDuration interval);
                        nextTimeout := nextTimeout w;
                        entered := after |})).
Proof.
  unfold watchdog_body. destruct c_connected as [x Hx]. rewrite Hx.
  reflexivity.
Qed.

Lemma loop_test : negb (closed c) && negb (isShutdown c) = true.
Proof. rewrite c_open, c_live. reflexivity. Qed.

(** Against a silent peer, a run of the watchdog that returns has sent
    one error, at the deadline set before the loop. *)
Lemma silent_run_shuts_down_once (events : list wd_event) :
  forall (w : wd) t c',
    start <= entered w <= deadline ->
    nextTimeout w = deadline ->
    silent interval w events ->
    watchdog_loop interval c w events = Some (t, Some (c', None)) ->
    error_sends_at t = [(deadline, not_responding)] /\ c' = shut_down.
Proof.
  induction events as [|e events IH]; intros w t c' Hent Hto Hsilent Hrun;
    cbn [watchdog_loop] in Hrun; rewrite loop_test in Hrun.
  - discriminate.
  - assert (Hfire : fires w (nextTimeout w) = deadline).
    { rewrite Hto. apply fires_at_deadline; [lia|].
      unfold deadline in *. lia. }
    destruct e as [after [err|]| | | |]; cbn [silent] in Hsilent;
      try contradiction.
    + (* a ping *)
      destruct Hsilent as [Hafter Hsilent].
      destruct (wd_enabled c w (PingTimer after None)) eqn:Hen; [|discriminate].
      rewrite ping_body in Hrun.
      set (w' := {| nextPing := Add after (pingDuration interval);
                    nextTimeout := nextTimeout w;
                    entered := after |}) in *.
      destruct (watchdog_loop interval c w' events) as [[t' r]|] eqn:Hrest;
        [|discriminate].
      inversion Hrun; subst t r.
      cbn [wd_enabled] in Hen. apply andb_prop in Hen. destruct Hen as [Hle _].
      apply Z.leb_le in Hle. rewrite Hfire in Hle.
      assert (Hent' : start <= entered w' <= deadline).
      { cbn [entered w']. rewrite Hafter.
        pose proof (fires_after_entering w (nextPing w)). lia. }
      destruct (IH w' t' c' Hent' Hto Hsilent Hrest) as [Hsend Hc'].
      split; [|exact Hc'].
      cbn [app error_sends_at]. exact Hsend.
    + (* the timeout *)
      destruct (wd_enabled c w TimeoutTimer); [|discriminate].
      rewrite timeout_body in Hrun. rewrite Hfire in Hrun.
      destruct events; [|discriminate].
      inversion Hrun; subst. split; reflexivity.
Qed.

(** The run in which the timers fire when they are due: two pings, then
    the timeout. *)
Definition silent_schedule : list wd_event :=
  [ PingTimer (start + interval * Second) None;
    PingTimer (start + 2 * interval * Second) None;
    TimeoutTimer ].

Lemma silent_schedule_runs :
  silent interval (watchdog_start interval start start) silent_schedule /\
  watchdog interval start c silent_schedule
    = Some ([(start + interval * Second, WsWrite PingMessage []);
             (start + 2 * interval * Second, WsWrite PingMessage []);
             (deadline, Trace);
             (deadline, ChanClose CShutdown);
             (deadline, ChanSend CError (Err not_responding))],
            Some (shut_down, None)).
Proof.
  unfold watchdog. rewrite watchdog_start_small.
  set (w0 := {| nextPing := start + interval * Second;
                nextTimeout := deadline; entered := start |}).
  set (w1 := {| nextPing := start + 2 * interval * Second;
                nextTimeout := deadline;
                entered := start + interval * Second |}).
  set (w2 := {| nextPing := start + 3 * interval * Second;
                nextTimeout := deadline;
                entered := start + 2 * interval * Second |}).
  assert (S0 : 0 < Second) by (unfold Second; lia).
  assert (F0 : fires w0 (nextPing w0) = start + interval * Second).
  { apply fires_at_deadline;
      cbv [entered nextPing nextTimeout w0 w1 w2 deadline Second] in *; lia. }
  assert (T0 : fires w0 (nextTimeout w0) = deadline).
  { apply fires_at_deadline;
      cbv [entered nextPing nextTimeout w0 w1 w2 deadline Second] in *; lia. }
  assert (F1 : fires w1 (nextPing w1) = start + 2 * interval * Second).
  { apply fires_at_deadline;
      cbv [entered nextPing nextTimeout w0 w1 w2 deadline Second] in *; lia. }
  assert (T1 : fires w1 (nextTimeout w1) = deadline).
  { apply fires_at_deadline;
      cbv [entered nextPing nextTimeout w0 w1 w2 deadline Second] in *; lia. }
  assert (F2 : fires w2 (nextPing w2) = start + 3 * interval * Second).
  { apply fires_at_deadline;
      cbv [entered nextPing nextTimeout w0 w1 w2 deadline Second] in *; lia. }
  assert (T2 : fires w2 (nextTimeout w2) = deadline).
  { apply fires_at_deadline;
      cbv [entered nextPing nextTimeout w0 w1 w2 deadline Second] in *; lia. }
  assert (N1 : {| nextPing := Add (start + interval * Second)
                                  (pingDuration interval);
                  nextTimeout := nextTimeout w0;
                  entered := start + interval * Second |} = w1).
  { unfold w1, Add. rewrite pingDuration_small.
    cbv [nextTimeout w0]. f_equal. lia. }
  assert (N2 : {| nextPing := Add (start + 2 * interval * Second)
                                  (pingDuration interval);
                  nextTimeout := nextTimeout w1;
                  entered := start + 2 * interval * Second |} = w2).
  { unfold w2, Add. rewrite pingDuration_small.
    cbv [nextTimeout w1]. f_equal. lia. }
  split.
  - unfold silent_schedule. cbn [silent].
    split; [symmetry; exact F0|]. rewrite N1.
    split; [symmetry; exact F1|]. exact I.
  - unfold silent_schedule. cbn [watchdog_loop]. rewrite loop_test.
    assert (E0 : wd_enabled c w0 (PingTimer (start + interval * Second) None)
                 = true).
    { cbn [wd_enabled]. rewrite F0, T0. apply andb_true_intro.
      split; apply Z.leb_le; unfold deadline, Second in *; lia. }
    assert (E1 : wd_enabled c w1 (PingTimer (start + 2 * interval * Second) None)
                 = true).
    { cbn [wd_enabled]. rewrite F1, T1. apply andb_true_intro.
      split; apply Z.leb_le; unfold deadline, Second in *; lia. }
    assert (E2 : wd_enabled c w2 TimeoutTimer = true).
    { cbn [wd_enabled]. rewrite F2, T2. apply Z.leb_le.
      unfold deadline, Second in *. lia. }
    rewrite E0, ping_body, N1, F0.
    rewrite E1, ping_body, N2, F1.
    rewrite E2, timeout_body, T2.
    rewrite !loop_test. reflexivity.
Qed.

End Watchdog.

(** C7. With a ping interval of [interval] seconds, the timeout deadline
    set before the loop is [2 * interval + 1] seconds after the start, one
    interval more than the [interval + 1] seconds that every
    acknowledgment sets it to, counted from that acknowledgment.  Against
    a peer that never acknowledges, the watchdog returns after two pings,
    and every run that returns has shut the epoch down with the error
    "server is not responding, closing", sent once, at that deadline:
    not before the first ping, [interval] seconds after the start, and,
    for an interval of 5, at 11 seconds. *)
Theorem watchdog_timing (interval start : Z) (c : Client) :
  0 < interval ->
  (2 * interval + 1) * Second < 2 ^ 63 ->
  Inv c ->
  isShutdown c = false ->
  let deadline := start + (2 * interval + 1) * Second in
  nextTimeout (watchdog_start interval start start) = deadline /\
  (forall w now,
      watchdog_body interval c w (Pong now)
        = ([], Some (c, Some {| nextPing := nextPing w;
                                nextTimeout := now + (interval + 1) * Second;
                                entered := now |}))) /\
  (exists t,
      silent interval (watchdog_start interval start start)
             (silent_schedule interval start) /\
      watchdog interval start c (silent_schedule interval start)
        = Some (t, Some (shut_down c, None))) /\
  (forall events t c',
      silent interval (watchdog_start interval start start) events ->
      watchdog interval start c events = Some (t, Some (c', None)) ->
      error_sends_at t = [(deadline, not_responding)] /\
      isShutdown c' = true) /\
  start + interval * Second <= deadline.
Proof.
  intros Hpos Hsmall HI Hlive deadline.
  split; [|split; [|split; [|split]]].
  - rewrite (watchdog_start_small interval start Hpos Hsmall). reflexivity.
  - intros w now. unfold watchdog_body, Add.
    rewrite (timeoutDuration_small interval Hpos Hsmall). reflexivity.
  - destruct (silent_schedule_runs interval start Hpos Hsmall c HI Hlive)
      as [Hs Hrun].
    eexists. split; [exact Hs|exact Hrun].
  - intros events t c' Hs Hrun. unfold watchdog in Hrun.
    destruct (silent_run_shuts_down_once interval start Hsmall c HI Hlive
                events (watchdog_start interval start start) t c') as [He Hc'].
    + rewrite (watchdog_start_small interval start Hpos Hsmall).
      cbn [entered]. unfold Second in *. lia.
    + rewrite (watchdog_start_small interval start Hpos Hsmall). reflexivity.
    + exact Hs.
    + exact Hrun.
    + split; [exact He|]. rewrite Hc'. reflexivity.
  - unfold deadline, Second in *. lia.
Qed.

Lemma watchdog_timing_witness :
  nextTimeout (watchdog_start 5 0 0) = 11 * Second /\
  (forall w now,
      watchdog_body 5 (dialed 1%nat) w (Pong now)
        = ([], Some (dialed 1%nat,
                     Some {| nextPing := nextPing w;
                             nextTimeout := now + 6 * Second;
                             entered := now |}))) /\
  (exists t,
      silent 5 (watchdog_start 5 0 0) (silent_schedule 5 0) /\
      watchdog 5 0 (dialed 1%nat) (silent_schedule 5 0)
        = Some (t, Some (shut_down (dialed 1%nat), None))) /\
  (forall events t c',
      silent 5 (watchdog_start 5 0 0) events ->
      watchdog 5 0 (dialed 1%nat) events = Some (t, Some (c', None)) ->
      error_sends_at t = [(11 * Second, not_responding)] /\
      isShutdown c' = true) /\
  5 * Second <= 11 * Second.
Proof.
  exact (watchdog_timing 5 0 (dialed 1%nat)
           eq_refl eq_refl (dialed_Inv 1%nat) eq_refl).
Defined.

End WsFacts.


(** ** More about the multiplexer: every chunk, in both states *)

Module MuxMore.
Import Go Eff Eff.Notations Mux MuxFacts.

(** The second half of the loop body of [handleStdin], from
    [// Handle new EscapeChars] on, on the chunk and the position as the
    first half leaves them. *)
Definition scan_chunk (s : stdfdsHandler) (st : bool * bytes * Z) : M effect bool :=
  let '(expectingCommand, input, escapePos) := st in
  if (0 <=? escapePos) && (escapePos =? len input - 1) then
    if len input =? 1 then ret true
    else
      input <- lift (slice_to input (len input - 1)) ;;
      emit (OutSend input) ;;;
      ret true
  else if 0 <=? escapePos then
    before <- lift (slice_to input escapePos) ;;
    command <- lift (index input escapePos) ;;
    after <- lift (slice_from input (escapePos + 2)) ;;
    replacement <- handleCommand s command ;;
    emit (OutSend (Join [before; after] replacement)) ;;;
    ret expectingCommand
  else
    emit (OutSend input) ;;;
    ret expectingCommand.

(** A chunk without its first escape character and the byte after it. *)
Fixpoint drop_escape (input : bytes) : bytes :=
  match input with
  | [] => []
  | b :: rest =>
      if Byte.eqb b EscapeChar then tl rest else b :: drop_escape rest
  end.

(** Whether the first escape character of a chunk is its last byte. *)
Fixpoint escape_last (input : bytes) : bool :=
  match input with
  | [] => false
  | b :: rest =>
      if Byte.eqb b EscapeChar then
        match rest with [] => true | _ => false end
      else escape_last rest
  end.

(** A handler whose key commands never panic: its side channel, when it is
    asked, answers with every field set or with an error. *)
Definition handler_safe (s : stdfdsHandler) : Prop :=
  forall c, value (handleCommand s c) <> None.

Lemma body_split (s : stdfdsHandler) (expectingCommand : bool) (input : bytes) :
  handleStdin_body s expectingCommand input
    = (st <-
         (if expectingCommand then
            c <- lift (index input 0) ;;
            replacement <- handleCommand s c ;;
            rest <- lift (slice_from input 1) ;;
            let input' := append replacement rest in
            let escapePos := IndexByte input EscapeChar in
            let escapePos :=
              if 0 <=? escapePos then escapePos + (1 - len replacement)
              else escapePos in
            ret (false, input', escapePos)
          else ret (expectingCommand, input, IndexByte input EscapeChar)) ;;
       scan_chunk s st).
Proof. reflexivity. Qed.

Lemma scan_no_escape (s : stdfdsHandler) (e : bool) (input : bytes) :
  scan_chunk s (e, input, -1) = ([OutSend input], Some e).
Proof. reflexivity. Qed.

Lemma scan_escape_last (s : stdfdsHandler) (e : bool) (b : bytes) (y : byte) :
  scan_chunk s (e, b ++ [y], len b)
    = (match b with [] => [] | _ => [OutSend b] end, Some true).
Proof.
  unfold scan_chunk. pose proof (len_nonneg b) as Hb.
  replace (0 <=? len b) with true by (symmetry; apply Z.leb_le; lia).
  replace (len b =? len (b ++ [y]) - 1) with true
    by (symmetry; apply Z.eqb_eq; rewrite len_app, len_cons; unfold len; simpl; lia).
  cbn [andb]. destruct b as [|x b]; [reflexivity|].
  replace (len ((x :: b) ++ [y]) =? 1) with false
    by (symmetry; apply Z.eqb_neq; rewrite len_app, !len_cons;
        pose proof (len_nonneg b); unfold len; simpl; lia).
  replace (len ((x :: b) ++ [y]) - 1) with (len (x :: b))
    by (rewrite len_app, !len_cons; unfold len; simpl; lia).
  rewrite slice_to_app. reflexivity.
Qed.

Lemma scan_escape_inside (s : stdfdsHandler) (e : bool)
    (b : bytes) (y c : byte) (a : bytes) :
  scan_chunk s (e, b ++ y :: c :: a, len b)
    = (replacement <- handleCommand s y ;;
       emit (OutSend (b ++ replacement ++ a)) ;;;
       ret e).
Proof.
  unfold scan_chunk.
  pose proof (len_nonneg b) as Hb. pose proof (len_nonneg a) as Ha.
  replace (0 <=? len b) with true by (symmetry; apply Z.leb_le; lia).
  replace (len b =? len (b ++ y :: c :: a) - 1) with false
    by (symmetry; apply Z.eqb_neq; rewrite len_app, !len_cons; lia).
  cbn [andb].
  rewrite slice_to_app, index_app.
  replace (b ++ y :: c :: a) with ((b ++ [y; c]) ++ a)
    by (rewrite <- app_assoc; reflexivity).
  replace (len b + 2) with (len (b ++ [y; c]))
    by (rewrite len_app, !len_cons; unfold len; simpl; lia).
  rewrite slice_from_app. unfold lift. cbn [bind].
  destruct (handleCommand s y) as [t [r|]]; reflexivity.
Qed.

(** A chunk is free of the escape character, or splits at its first. *)
Lemma first_escape (input : bytes) :
  ~ In EscapeChar input \/
  exists before rest,
    input = before ++ EscapeChar :: rest /\ ~ In EscapeChar before.
Proof.
  induction input as [|b input IH]; [left; intros []|].
  destruct (Byte.eqb b EscapeChar) eqn:E.
  - apply byte_eqb_eq in E. subst b. right. exists [], input. split; [reflexivity|intros []].
  - assert (Hb : b <> EscapeChar)
      by (intros ->; rewrite (proj2 (byte_eqb_eq _ _) eq_refl) in E; discriminate).
    destruct IH as [IH|(before & rest & -> & Hbefore)].
    + left. intros [H|H]; [congruence|contradiction].
    + right. exists (b :: before), rest. split; [reflexivity|].
      intros [H|H]; [congruence|contradiction].
Qed.

Lemma drop_escape_absent (input : bytes) :
  ~ In EscapeChar input -> drop_escape input = input /\ escape_last input = false.
Proof.
  induction input as [|b input IH]; intros H; [split; reflexivity|].
  cbn [drop_escape escape_last].
  rewrite byte_eqb_neq by (intros ->; apply H; left; reflexivity).
  destruct IH as [-> ->]; [intros Hin; apply H; right; exact Hin|].
  split; reflexivity.
Qed.

Lemma drop_escape_first (before rest : bytes) :
  ~ In EscapeChar before ->
  drop_escape (before ++ EscapeChar :: rest) = before ++ tl rest /\
  escape_last (before ++ EscapeChar :: rest)
    = match rest with [] => true | _ => false end.
Proof.
  induction before as [|b before IH]; intros H; cbn [app drop_escape escape_last].
  - change (Byte.eqb EscapeChar EscapeChar) with true. split; reflexivity.
  - rewrite byte_eqb_neq by (intros ->; apply H; left; reflexivity).
    destruct IH as [-> ->]; [intros Hin; apply H; right; exact Hin|].
    split; reflexivity.
Qed.

(** In Normal state every chunk is processed without a panic and without
    running a key command: the chunk is forwarded without its first escape
    character and the byte after it, and the next state is PendingCommand
    exactly when that escape character was the last byte of the chunk. *)
Theorem normal_chunk_drops_escape (s : stdfdsHandler) (input : bytes) :
  exists out,
    handleStdin_body s false input = (out, Some (escape_last input)) /\
    side_effects out = [] /\
    List.concat (forwarded out) = drop_escape input.
Proof.
  rewrite body_split. cbn [bind ret app].
  destruct (first_escape input) as [Habsent|(before & rest & -> & Hbefore)].
  - rewrite (IndexByte_absent _ _ Habsent).
    destruct (drop_escape_absent input Habsent) as [-> ->].
    eexists. split; [reflexivity|]. cbn. rewrite app_nil_r. split; reflexivity.
  - rewrite (IndexByte_first _ _ _ Hbefore).
    destruct (drop_escape_first before rest Hbefore) as [-> ->].
    destruct rest as [|c after].
    + rewrite scan_escape_last. eexists. split; [reflexivity|].
      destruct before; cbn; rewrite ?app_nil_r; split; reflexivity.
    + rewrite scan_escape_inside, handleCommand_EscapeChar.
      eexists. split; [reflexivity|]. cbn. rewrite app_nil_r. split; reflexivity.
Qed.

Lemma eqb_refl_byte (b : byte) : Byte.eqb b b = true.
Proof. apply byte_eqb_eq. reflexivity. Qed.

(** The four facts of [handleCommand_effects] on a computed trace that does
    not ask for the detection. *)
Ltac no_detection :=
  split; [reflexivity|];
  split;
  [ split;
    [ intros Hin; repeat (destruct Hin as [Hin|Hin]; [discriminate Hin|]);
      destruct Hin
    | intros [Hc Hi]; first [discriminate Hc | discriminate Hi] ]
  | split; [reflexivity|]; intros r Hr; inversion Hr; reflexivity ].

(** The bytes put back by a key command that returns. *)
Lemma handleCommand_value (s : stdfdsHandler) (c : byte) (r : bytes) :
  value (handleCommand s c) = Some r ->
  r = if Byte.eqb c CtrlTChar then [EscapeChar] else [].
Proof.
  unfold handleCommand.
  destruct (Byte.eqb c QuitChar) eqn:Eq;
    [apply byte_eqb_eq in Eq; subst c; cbn; intros H; inversion H; reflexivity|].
  destruct (Byte.eqb c ConfigChar) eqn:Ec.
  { apply byte_eqb_eq in Ec. subst c.
    change (Byte.eqb ConfigChar CtrlTChar) with false. cbv iota.
    destruct (handleCommand s ConfigChar) as [t0 v0] eqn:E0.
    unfold handleCommand in E0. cbn [Byte.eqb] in E0.
    change (Byte.eqb ConfigChar QuitChar) with false in E0.
    change (Byte.eqb ConfigChar ConfigChar) with true in E0.
    cbv iota in E0. rewrite E0. cbn [value snd].
    destruct s as [impl srv addr stty].
    cbn [implementation server remoteAddr getStty] in E0.
    destruct (String.eqb srv EmptyString);
      destruct impl; cbn [is_WiSe] in E0;
      try destruct stty as [[[b|] [d|] [st|] [pa|]]|err];
      cbn in E0; inversion E0; subst; intros H; inversion H; reflexivity. }
  destruct (Byte.eqb c DetectBaudChar) eqn:Eb.
  { apply byte_eqb_eq in Eb. subst c.
    destruct (is_WiSe (implementation s)); cbn; intros H; inversion H; reflexivity. }
  destruct (Byte.eqb c ClearChar) eqn:El;
    [apply byte_eqb_eq in El; subst c; cbn; intros H; inversion H; reflexivity|].
  destruct (Byte.eqb c CtrlTChar) eqn:Et;
    [cbn; intros H; inversion H; reflexivity|].
  destruct (Byte.eqb c HelpChar) eqn:Eh;
    cbn; intros H; inversion H; reflexivity.
Qed.

(** What a key command does, whatever the handler: the quit sentinel is
    raised once by 'q' and by no other byte; the baud-rate detection is
    asked for by 'b' on a Wi-Se server and in no other case; nothing is
    forwarded by the command itself; and when the command returns, the
    bytes put back are the escape character for 't' and none for any other
    byte. *)
Theorem handleCommand_effects (s : stdfdsHandler) (c : byte) :
  quit_count (trace (handleCommand s c))
    = (if Byte.eqb c QuitChar then 1 else 0)%nat /\
  (In RequestBaudrateDetection (trace (handleCommand s c)) <->
   c = DetectBaudChar /\ implementation s = ImplementationWiSe) /\
  forwarded (trace (handleCommand s c)) = [] /\
  (forall r, value (handleCommand s c) = Some r ->
             r = if Byte.eqb c CtrlTChar then [EscapeChar] else []).
Proof.
  unfold handleCommand.
  destruct (Byte.eqb c QuitChar) eqn:Eq.
  { apply byte_eqb_eq in Eq. subst c. cbn. no_detection. }
  destruct (Byte.eqb c ConfigChar) eqn:Ec.
  { apply byte_eqb_eq in Ec. subst c.
    destruct s as [impl srv addr stty].
    cbn [implementation server remoteAddr getStty].
    destruct (String.eqb srv EmptyString);
      destruct impl; cbn [is_WiSe];
      try destruct stty as [[[b|] [d|] [st|] [pa|]]|err];
      cbn; no_detection. }
  destruct (Byte.eqb c DetectBaudChar) eqn:Eb.
  { apply byte_eqb_eq in Eb. subst c.
    destruct s as [impl srv addr stty]. cbn [implementation].
    destruct impl; cbn; [no_detection|].
    split; [reflexivity|].
    split; [split; [intros _; split; reflexivity|intros _; right; right; left; reflexivity]|].
    split; [reflexivity|]. intros r Hr. inversion Hr. reflexivity. }
  destruct (Byte.eqb c ClearChar) eqn:El.
  { apply byte_eqb_eq in El. subst c. cbn. no_detection. }
  destruct (Byte.eqb c CtrlTChar) eqn:Et.
  { apply byte_eqb_eq in Et. subst c. cbn. no_detection. }
  destruct (Byte.eqb c HelpChar) eqn:Eh.
  { apply byte_eqb_eq in Eh. subst c. cbn. no_detection. }
  cbn. split; [reflexivity|].
  split; [split; [intros []|]|].
  - intros [Hc _]. subst c. rewrite eqb_refl_byte in Eb. discriminate Eb.
  - split; [reflexivity|]. intros r Hr. inversion Hr. reflexivity.
Qed.

(** Against a ttyd server no key command asks the side channel, and none
    panics. *)
Lemma handler_safe_ttyd (s : stdfdsHandler) :
  implementation s = ImplementationTtyd -> handler_safe s.
Proof.
  intros Hi c. unfold handleCommand. rewrite Hi. cbn [is_WiSe].
  destruct (Byte.eqb c QuitChar); [cbn; discriminate|].
  destruct (Byte.eqb c ConfigChar);
    [destruct (String.eqb (server s) EmptyString); cbn; discriminate|].
  destruct (Byte.eqb c DetectBaudChar); [cbn; discriminate|].
  destruct (Byte.eqb c ClearChar); [cbn; discriminate|].
  destruct (Byte.eqb c CtrlTChar); [cbn; discriminate|].
  destruct (Byte.eqb c HelpChar); cbn; discriminate.
Qed.

Lemma handleCommand_returns (s : stdfdsHandler) (c : byte) :
  handler_safe s ->
  exists t,
    handleCommand s c
      = (t, Some (if Byte.eqb c CtrlTChar then [EscapeChar] else [])).
Proof.
  intros Hsafe. specialize (Hsafe c).
  pose proof (handleCommand_value s c) as Hr.
  destruct (handleCommand s c) as [t [r|]]; cbn [value snd] in *; [|congruence].
  exists t. rewrite (Hr r eq_refl). reflexivity.
Qed.

Lemma scan_position_beyond (s : stdfdsHandler) (e : bool) (b : bytes) :
  scan_chunk s (e, b, len b + 1) = ([], None).
Proof.
  unfold scan_chunk. pose proof (len_nonneg b) as Hb.
  replace (0 <=? len b + 1) with true by (symmetry; apply Z.leb_le; lia).
  replace (len b + 1 =? len b - 1) with false by (symmetry; apply Z.eqb_neq; lia).
  cbn [andb]. unfold slice_to.
  replace (len b + 1 <=? len b) with false by (symmetry; apply Z.leb_gt; lia).
  rewrite andb_false_r. reflexivity.
Qed.

Lemma scan_position_at_end (s : stdfdsHandler) (e : bool) (b : bytes) (x : byte) :
  scan_chunk s (e, b ++ [x], len b + 1) = ([], None).
Proof.
  unfold scan_chunk. pose proof (len_nonneg b) as Hb.
  assert (Hl : len (b ++ [x]) = len b + 1)
    by (rewrite len_app, len_cons; unfold len; simpl; lia).
  rewrite Hl.
  replace (0 <=? len b + 1) with true by (symmetry; apply Z.leb_le; lia).
  replace (len b + 1 =? len b + 1 - 1) with false by (symmetry; apply Z.eqb_neq; lia).
  cbn [andb]. rewrite <- Hl at 1. rewrite <- (app_nil_r (b ++ [x])) at 1.
  rewrite slice_to_app. unfold index. rewrite Hl.
  replace (len b + 1 <? len b + 1) with false by (symmetry; apply Z.ltb_ge; lia).
  rewrite andb_false_r. reflexivity.
Qed.

(** In PendingCommand state, with a command byte other than 't' (so that
    nothing is put back) and key commands that do not panic themselves, the
    goroutine panics on an index out of range exactly when the chunk holds
    an escape character and its first one is the last or the last but one
    byte of the chunk. *)
Theorem pending_panics_exactly (s : stdfdsHandler) (c : byte) (rest : bytes) :
  handler_safe s ->
  c <> CtrlTChar ->
  (value (handleStdin_body s true (c :: rest)) = None <->
   0 <= IndexByte (c :: rest) EscapeChar /\
   len (c :: rest) - 2 <= IndexByte (c :: rest) EscapeChar).
Proof.
  intros Hsafe Hc.
  destruct (handleCommand_returns s c Hsafe) as [t Ht].
  rewrite (byte_eqb_neq _ _ Hc) in Ht.
  rewrite body_split.
  change (index (c :: rest) 0) with (Some c).
  assert (Hs : slice_from (c :: rest) 1 = Some rest).
  { unfold slice_from. rewrite len_cons. pose proof (len_nonneg rest).
    replace (1 <=? len rest + 1) with true by (symmetry; apply Z.leb_le; lia).
    reflexivity. }
  rewrite Hs. unfold lift. cbn [bind]. rewrite Ht. cbn [bind ret append app].
  change (len []) with 0.
  pose proof (len_nonneg rest) as Hrest.
  destruct (first_escape (c :: rest)) as [Habsent|(before & rest' & Heq & Hbefore)].
  - rewrite (IndexByte_absent _ _ Habsent). cbn [Z.leb Z.compare].
    rewrite scan_no_escape. cbn [value snd].
    split; [discriminate|]. lia.
  - assert (HP : IndexByte (c :: rest) EscapeChar = len before)
      by (rewrite Heq; apply IndexByte_first; exact Hbefore).
    rewrite HP.
    pose proof (len_nonneg before) as Hb.
    replace (0 <=? len before) with true by (symmetry; apply Z.leb_le; lia).
    (* the chunk after the consumed byte, split where the position points *)
    assert (Hsplit : exists b0, rest = b0 ++ rest' /\ len b0 = len before).
    { destruct before as [|x before]; cbn [app] in Heq; inversion Heq; subst.
      - exists []. split; reflexivity.
      - exists (before ++ [EscapeChar]). split.
        + rewrite <- app_assoc. reflexivity.
        + rewrite len_app, !len_cons. unfold len. simpl. lia. }
    destruct Hsplit as (b0 & -> & Hb0).
    rewrite len_cons, len_app. rewrite <- Hb0.
    replace (len b0 + (1 - 0)) with (len b0 + 1) by lia.
    destruct rest' as [|x [|y [|z a]]].
    + rewrite app_nil_r, scan_position_beyond. cbn [value snd].
      change (len []) with 0. split; [lia|reflexivity].
    + rewrite scan_position_at_end. cbn [value snd].
      rewrite len_cons. change (len []) with 0. split; [lia|reflexivity].
    + replace (b0 ++ [x; y]) with ((b0 ++ [x]) ++ [y])
        by (rewrite <- app_assoc; reflexivity).
      replace (len b0 + 1) with (len (b0 ++ [x]))
        by (rewrite len_app, len_cons; unfold len; simpl; lia).
      rewrite scan_escape_last. cbn [value snd].
      rewrite !len_cons. change (len []) with 0.
      split; [destruct (b0 ++ [x]); discriminate|lia].
    + replace (b0 ++ x :: y :: z :: a) with ((b0 ++ [x]) ++ y :: z :: a)
        by (rewrite <- app_assoc; reflexivity).
      replace (len b0 + 1) with (len (b0 ++ [x]))
        by (rewrite len_app, len_cons; unfold len; simpl; lia).
      rewrite scan_escape_inside.
      destruct (handleCommand_returns s y Hsafe) as [ty Hy]. rewrite Hy.
      cbn [bind emit ret value snd].
      rewrite !len_cons. pose proof (len_nonneg a).
      split; [discriminate|lia].
Qed.

Lemma pending_panics_exactly_witness :
  value (handleStdin_body plain_handler true [QuitChar; EscapeChar; x61]) = None <->
  0 <= IndexByte [QuitChar; EscapeChar; x61] EscapeChar /\
  len [QuitChar; EscapeChar; x61] - 2
    <= IndexByte [QuitChar; EscapeChar; x61] EscapeChar.
Proof.
  apply (pending_panics_exactly plain_handler QuitChar [EscapeChar; x61]).
  - apply handler_safe_ttyd. reflexivity.
  - discriminate.
Defined.

(** In PendingCommand state the command 't' never panics and runs no other
    command: it forwards the escape character followed by the rest of the
    chunk without its first escape character and the byte after it, which
    is what the rest of the chunk forwards when read in Normal state, and
    the next state is PendingCommand exactly when that escape character was
    the last byte of the chunk. *)
Theorem pending_ctrl_t_sends_escape (s : stdfdsHandler) (rest : bytes) :
  exists out,
    handleStdin_body s true (CtrlTChar :: rest) = (out, Some (escape_last rest)) /\
    side_effects out = [] /\
    List.concat (forwarded out) = EscapeChar :: drop_escape rest.
Proof.
  rewrite body_split.
  change (index (CtrlTChar :: rest) 0) with (Some CtrlTChar).
  assert (Hs : slice_from (CtrlTChar :: rest) 1 = Some rest).
  { unfold slice_from. rewrite len_cons. pose proof (len_nonneg rest).
    replace (1 <=? len rest + 1) with true by (symmetry; apply Z.leb_le; lia).
    reflexivity. }
  rewrite Hs. unfold lift. cbn [bind].
  change (handleCommand s CtrlTChar) with (@ret effect bytes [EscapeChar]).
  cbn [bind ret append app].
  change (len [EscapeChar]) with 1.
  assert (Ht : CtrlTChar <> EscapeChar) by discriminate.
  destruct (first_escape rest) as [Habsent|(before & rest' & -> & Hbefore)].
  - assert (Habs' : ~ In EscapeChar (CtrlTChar :: rest))
      by (intros [H|H]; [congruence|contradiction]).
    rewrite (IndexByte_absent _ _ Habs'). cbn [Z.leb Z.compare].
    rewrite scan_no_escape.
    destruct (drop_escape_absent rest Habsent) as [-> ->].
    eexists. split; [reflexivity|]. cbn. rewrite app_nil_r. repeat split.
  - assert (Hbef' : ~ In EscapeChar (CtrlTChar :: before))
      by (intros [H|H]; [congruence|contradiction]).
    change (CtrlTChar :: before ++ EscapeChar :: rest')
      with ((CtrlTChar :: before) ++ EscapeChar :: rest').
    rewrite (IndexByte_first _ _ _ Hbef').
    pose proof (len_nonneg (CtrlTChar :: before)) as Hb.
    replace (0 <=? len (CtrlTChar :: before)) with true
      by (symmetry; apply Z.leb_le; lia).
    replace (len (CtrlTChar :: before) + (1 - 1))
      with (len (EscapeChar :: before)) by (rewrite !len_cons; lia).
    change (EscapeChar :: before ++ EscapeChar :: rest')
      with ((EscapeChar :: before) ++ EscapeChar :: rest').
    destruct (drop_escape_first before rest' Hbefore) as [-> ->].
    destruct rest' as [|c after].
    + rewrite scan_escape_last. eexists. split; [reflexivity|].
      cbn. rewrite !app_nil_r. repeat split.
    + rewrite scan_escape_inside, handleCommand_EscapeChar.
      eexists. split; [reflexivity|]. cbn. rewrite app_nil_r. repeat split.
Qed.

(** A stream without the escape character goes through as it is: every
    chunk read before the close signal is forwarded unchanged, in order, as
    a chunk of its own (an empty chunk too); no key command runs; and
    nothing read after the close signal is forwarded. *)
Theorem escape_free_stream (s : stdfdsHandler) (chunks : list bytes)
    (later : list stdin_event) :
  Forall (fun chunk => ~ In EscapeChar chunk) chunks ->
  handleStdin s false (map Chunk chunks ++ CloseSignal :: later)
    = (map OutSend chunks, Some false).
Proof.
  induction 1 as [|chunk chunks Hchunk Hchunks IH]; [reflexivity|].
  cbn [map app handleStdin].
  assert (Hbody : handleStdin_body s false chunk = ([OutSend chunk], Some false)).
  { rewrite body_split. cbn [bind ret app].
    rewrite (IndexByte_absent _ _ Hchunk). exact (scan_no_escape s false chunk). }
  rewrite Hbody. cbn [bind]. rewrite IH. reflexivity.
Qed.

Lemma escape_free_stream_witness :
  handleStdin plain_handler false
    (map Chunk [[x6c; x73]; []; [x0d]] ++ CloseSignal :: [Chunk [x71]])
    = (map OutSend [[x6c; x73]; []; [x0d]], Some false).
Proof.
  apply (escape_free_stream plain_handler [[x6c; x73]; []; [x0d]] [Chunk [x71]]).
  repeat constructor; cbv; intuition discriminate.
Defined.

End MuxMore.


(** ** More about the protocol engine *)

Module WsMore.
Import Go Eff Eff.Notations Ws WsFacts.

(** *** The control operations

    Each sends one frame on [toWs]; the value of the operation is that
    frame. *)

(** [strconv.FormatInt(n, 10)], as [json.Marshal] writes an [int]: the
    decimal digits of a non-negative number, most significant first. *)
Fixpoint digits_of (fuel : nat) (n : Z) (acc : list Z) : list Z :=
  match fuel with
  | O => n :: acc
  | S fuel' =>
      if n <? 10 then n :: acc
      else digits_of fuel' (n / 10) (n mod 10 :: acc)
  end.

Definition FormatInt (n : Z) : bytes :=
  if n <? 0 then x2d :: map digit_char (digits_of 20 (- n) [])
  else map digit_char (digits_of 20 n []).

(** [json.Marshal(&ResizeTerminalDTO{Columns: cols, Rows: rows})]. *)
Definition ResizeTerminalDTO_json (cols rows : Z) : bytes :=
  [x7b; x22] ++ list_byte_of_string "columns" ++ [x22; x3a] ++ FormatInt cols
  ++ [x2c; x22] ++ list_byte_of_string "rows" ++ [x22; x3a] ++ FormatInt rows
  ++ [x7d].

Definition ResizeTerminal (cols rows : Z) : bytes :=
  append [MsgResizeTerminal] (ResizeTerminalDTO_json cols rows).

Definition Pause : bytes := [MsgPause].

Definition Resume : bytes := [MsgResume].

Definition RequestBaudrateDetection : bytes := [MsgDetectBaudrate].

(** *** [readLoop]

    What [WsClient.ReadMessage()] answers: an error, or a message with its
    type ([websocket.TextMessage] is 1, [websocket.BinaryMessage] is 2). *)
Inductive read_result :=
| ReadErr (e : string)
| ReadMsg (msgType : Z) (data : bytes).

Definition wsTextMessage : Z := 1.
Definition wsBinaryMessage : Z := 2.

(** [readLoop] over the answers of [ReadMessage], with no other goroutine
    changing the client meanwhile.  The result tells whether the function
    returned; it has not when the answers run out, and waits in
    [ReadMessage].  Calling [ReadMessage] on a nil [WsClient] panics. *)
Fixpoint readLoop (c : Client) (reads : list read_result)
  : M action (Client * bool) :=
  if negb (closed c) && negb (isShutdown c) then
    _ <- lift (WsClient c) ;;
    match reads with
    | [] => ret (c, false)
    | ReadErr e :: _ =>
        emit Trace ;;;
        c <- doShutdown (Some e) c ;;
        ret (c, true)
    | ReadMsg msgType data :: rest =>
        if negb (msgType =? wsBinaryMessage) && negb (msgType =? wsTextMessage)
        then readLoop c rest
        else
          match fromWs c with
          | ChClosed => panic
          | _ => emit (ChanSend CFromWs (Bytes data)) ;;; readLoop c rest
          end
    end
  else ret (c, true).

(** The frames handed to [chanLoop]. *)
Fixpoint fromWs_sends (t : list action) : list bytes :=
  match t with
  | [] => []
  | ChanSend CFromWs (Bytes d) :: rest => d :: fromWs_sends rest
  | _ :: rest => fromWs_sends rest
  end.

(** The data of the text and binary messages read before the first error. *)
Fixpoint frames_read (reads : list read_result) : list bytes :=
  match reads with
  | [] => []
  | ReadErr _ :: _ => []
  | ReadMsg msgType data :: rest =>
      if (msgType =? wsBinaryMessage) || (msgType =? wsTextMessage)
      then data :: frames_read rest
      else frames_read rest
  end.

(** The first error among the answers. *)
Fixpoint first_error (reads : list read_result) : option string :=
  match reads with
  | [] => None
  | ReadErr e :: _ => Some e
  | ReadMsg _ _ :: rest => first_error rest
  end.

(** The events of [step] that are calls made by other goroutines. *)
Definition external (e : event) : bool :=
  match e with
  | CallDoShutdown _ | CallClose _ | CallRedial _ _ | CallSoftClose _ => true
  | _ => false
  end.

(** The deadline that the acknowledgments among [events] leave, from the
    deadline [d]. *)
Fixpoint deadline_after (interval d : Z) (events : list wd_event) : Z :=
  match events with
  | [] => d
  | Pong now :: rest =>
      deadline_after interval (Add now (timeoutDuration interval)) rest
  | _ :: rest => deadline_after interval d rest
  end.

(** A state in which the loop waits in its [select], in an epoch that is
    neither shut down nor closed. *)
Definition selecting (s : sys) : Prop :=
  reachable s /\ at_pc s = AtSelect /\
  isShutdown (cl s) = false /\ closed (cl s) = false.

Lemma selecting_running (w : conn) : selecting (running w).
Proof. split; [apply running_reachable|repeat split]. Qed.

Lemma selecting_facts (s : sys) :
  selecting s ->
  Inv (cl s) /\ at_pc s = AtSelect /\
  loop_head (cl s) = AtSelect /\
  fromWs (cl s) = ChOpen /\ toWs (cl s) = ChOpen /\ input (cl s) = ChOpen /\
  output (cl s) = ChOpen /\ winTitle (cl s) = ChOpen /\ error (cl s) = ChOpen /\
  shutdown (cl s) = ChOpen /\
  exists w, WsClient (cl s) = Some w.
Proof.
  intros (Hr & Hpc & Hs & Hc).
  destruct (reachable_SysInv s Hr) as [HI _].
  pose proof HI as (Hgate & Hws & Hepoch & Hopen & Hdb).
  destruct (Hopen Hc) as (_ & Hwt & Hout & Hin & Herr & Hto & Hfrom).
  destruct (Hepoch Hs) as [Hsd _].
  split; [exact HI|]. split; [exact Hpc|].
  split; [unfold loop_head; rewrite Hs, Hc; reflexivity|].
  repeat (split; [assumption|]).
  destruct (WsClient (cl s)) as [w|]; [exists w; reflexivity|congruence].
Qed.

(** The invariants of the engine: in every state reached from a successful
    [DialAndAuth], the mutex of the flow gate is locked exactly when the
    gate is engaged, a closed client is shut down, there is a connection,
    the loop never waits for the mutex in the server-pause case, and the
    channels of a client that is not closed are open. *)
Theorem reachable_invariants (s : sys) :
  reachable s ->
  flowControl (cl s) = flowControlEngaged (cl s) /\
  (closed (cl s) = true -> isShutdown (cl s) = true) /\
  WsClient (cl s) <> None /\
  at_pc s <> LockPause /\
  (closed (cl s) = false ->
   closeChan (cl s) = ChOpen /\ winTitle (cl s) = ChOpen /\
   output (cl s) = ChOpen /\ input (cl s) = ChOpen /\ error (cl s) = ChOpen /\
   toWs (cl s) = ChOpen /\ fromWs (cl s) = ChOpen).
Proof.
  intros Hr.
  destruct (reachable_SysInv s Hr) as [(Hgate & Hws & Hepoch & Hopen & Hdb) Hpc].
  split; [exact Hgate|]. split.
  - intros Hc. destruct (isShutdown (cl s)) eqn:Hs; [reflexivity|].
    destruct (Hepoch eq_refl) as [_ Hc']. congruence.
  - split; [exact Hws|]. split; [exact Hpc|exact Hopen].
Qed.

Lemma reachable_invariants_witness :
  flowControl (cl (running 1%nat)) = flowControlEngaged (cl (running 1%nat)) /\
  (closed (cl (running 1%nat)) = true -> isShutdown (cl (running 1%nat)) = true) /\
  WsClient (cl (running 1%nat)) <> None /\
  at_pc (running 1%nat) <> LockPause /\
  (closed (cl (running 1%nat)) = false ->
   closeChan (cl (running 1%nat)) = ChOpen /\ winTitle (cl (running 1%nat)) = ChOpen /\
   output (cl (running 1%nat)) = ChOpen /\ input (cl (running 1%nat)) = ChOpen /\
   error (cl (running 1%nat)) = ChOpen /\
   toWs (cl (running 1%nat)) = ChOpen /\ fromWs (cl (running 1%nat)) = ChOpen).
Proof.
  exact (reachable_invariants (running 1%nat) (running_reachable 1%nat)).
Defined.

Lemma set_gate_undo (c : Client) :
  flowControl c = false -> flowControlEngaged c = false ->
  set_gate false false (set_gate true true c) = c.
Proof. intros H1 H2. destruct c; cbn in *; subst; reflexivity. Qed.

Lemma set_gate_twice (a b a' b' : bool) (c : Client) :
  set_gate a b (set_gate a' b' c) = set_gate a b c.
Proof. destruct c; reflexivity. Qed.

(** Server pause and resume, whatever their payload: a pause engages the
    gate and locks its mutex, a second pause changes nothing, a resume
    after the pause puts the client back as it was, and a resume with the
    gate disengaged changes nothing; none of them writes or sends
    anything. *)
Theorem pause_resume_round_trip (s : sys) (p1 p2 p3 p4 : bytes) :
  selecting s ->
  flowControlEngaged (cl s) = false ->
  let paused := {| cl := set_gate true true (cl s); at_pc := AtSelect |} in
  step s (FromWs (MsgServerPause :: p1)) = Some ([], Some paused) /\
  step paused (FromWs (MsgServerPause :: p2)) = Some ([], Some paused) /\
  step paused (FromWs (MsgServerResume :: p3)) = Some ([], Some s) /\
  step s (FromWs (MsgServerResume :: p4)) = Some ([], Some s).
Proof.
  intros Hsel He paused.
  destruct (selecting_facts s Hsel)
    as (HI & Hpc & Hloop & Hfrom & _).
  pose proof HI as (Hgate & _). rewrite He in Hgate.
  unfold paused. clear paused Hsel HI.
  destruct s as [c p]. cbn [cl at_pc] in *. subst p.
  assert (Hloop' : loop_head (set_gate true true c) = AtSelect)
    by (destruct c; exact Hloop).
  assert (Hfrom' : fromWs (set_gate true true c) = ChOpen)
    by (destruct c; exact Hfrom).
  cbn [step cl at_pc]. rewrite Hfrom, Hfrom'. cbn [recv_ready].
  unfold dispatch.
  change (Byte.eqb MsgServerPause MsgOutput) with false.
  change (Byte.eqb MsgServerPause MsgServerPause) with true.
  change (Byte.eqb MsgServerResume MsgOutput) with false.
  change (Byte.eqb MsgServerResume MsgServerPause) with false.
  change (Byte.eqb MsgServerResume MsgServerResume) with true.
  cbv iota. rewrite He, Hgate. cbn [negb].
  unfold continue_loop, unlock_gate.
  cbn [flowControlEngaged flowControl set_gate negb bind ret app].
  rewrite !set_gate_twice.
  replace (set_gate false false c) with c
    by (destruct c; cbn in *; subst; reflexivity).
  rewrite Hloop, Hloop'. repeat split.
Qed.

Lemma pause_resume_round_trip_witness :
  let paused := {| cl := set_gate true true (cl (running 1%nat));
                   at_pc := AtSelect |} in
  step (running 1%nat) (FromWs (MsgServerPause :: [])) = Some ([], Some paused) /\
  step paused (FromWs (MsgServerPause :: [x61])) = Some ([], Some paused) /\
  step paused (FromWs (MsgServerResume :: [])) = Some ([], Some (running 1%nat)) /\
  step (running 1%nat) (FromWs (MsgServerResume :: []))
    = Some ([], Some (running 1%nat)).
Proof.
  exact (pause_resume_round_trip (running 1%nat) [] [x61] [] []
           (selecting_running 1%nat) eq_refl).
Defined.

(** A frame whose tag is none of the five that [chanLoop] knows (the
    server preferences, tag '2', among them) is ignored, and so is an empty
    value received from any of the three queues: nothing is written,
    nothing is sent, the client is unchanged and the loop goes on. *)
Theorem unknown_and_empty_frames_ignored (s : sys) (tag : byte) (payload : bytes)
    (werr : option string) :
  selecting s ->
  tag <> MsgOutput ->
  tag <> MsgServerPause ->
  tag <> MsgServerResume ->
  tag <> MsgSetWindowTitle ->
  tag <> MsgDetectBaudrate ->
  step s (FromWs (tag :: payload)) = Some ([], Some s) /\
  step s (FromWs []) = Some ([], Some s) /\
  step s (ToWs [] werr) = Some ([], Some s) /\
  step s (Input [] werr) = Some ([], Some s).
Proof.
  intros Hsel H0 HS HQ H1 HB.
  destruct (selecting_facts s Hsel)
    as (HI & Hpc & Hloop & Hfrom & Hto & Hin & _).
  clear Hsel HI. destruct s as [c p]. cbn [cl at_pc] in *. subst p.
  cbn [step cl at_pc].
  rewrite Hfrom, Hto, Hin. cbn [recv_ready].
  unfold dispatch.
  rewrite !(MuxFacts.byte_eqb_neq tag) by assumption.
  unfold continue_loop. rewrite Hloop. repeat split.
Qed.

Lemma unknown_and_empty_frames_ignored_witness :
  step (running 1%nat) (FromWs (MsgPreferences :: [x7b; x7d]))
    = Some ([], Some (running 1%nat)) /\
  step (running 1%nat) (FromWs []) = Some ([], Some (running 1%nat)) /\
  step (running 1%nat) (ToWs [] None) = Some ([], Some (running 1%nat)) /\
  step (running 1%nat) (Input [] None) = Some ([], Some (running 1%nat)).
Proof.
  apply (unknown_and_empty_frames_ignored (running 1%nat) MsgPreferences
           [x7b; x7d] None (selecting_running 1%nat)); discriminate.
Defined.

(** The client tags the bytes typed by the user with the tag that the
    server uses for its output ('0'): a chunk taken from the input port is
    written as one frame, and that very frame, when it comes back from the
    server, is sent on the output port as the chunk itself, which a reader
    of the port receives; the client is then as it was. *)
Theorem input_echo_round_trip (s : sys) (data : bytes) :
  selecting s ->
  data <> [] ->
  step s (Input data None)
    = Some ([WsWrite BinaryMessage (MsgInput :: data)], Some s) /\
  run s [Input data None; FromWs (MsgInput :: data); Receive COutput]
    = Some ([WsWrite BinaryMessage (MsgInput :: data);
             ChanSend COutput (Bytes data);
             Delivered COutput (Bytes data)],
            Some s).
Proof.
  intros Hsel Hd.
  destruct (selecting_facts s Hsel)
    as (HI & Hpc & Hloop & Hfrom & Hto & Hin & Hout & _ & _ & _ & w & Hw).
  clear Hsel HI. destruct s as [c p]. cbn [cl at_pc] in *. subst p.
  assert (H1 : step {| cl := c; at_pc := AtSelect |} (Input data None)
               = Some ([WsWrite BinaryMessage (MsgInput :: data)],
                       Some {| cl := c; at_pc := AtSelect |})).
  { cbn [step cl at_pc]. rewrite Hin. cbn [recv_ready].
    destruct data as [|b data]; [congruence|].
    unfold write_frame. rewrite Hw. cbn [lift bind emit ret append app].
    unfold continue_loop. rewrite Hloop. reflexivity. }
  split; [exact H1|].
  cbn [run]. rewrite H1.
  assert (H2 : step {| cl := c; at_pc := AtSelect |} (FromWs (MsgInput :: data))
               = Some ([ChanSend COutput (Bytes data)],
                       Some {| cl := c; at_pc := Sending COutput (Bytes data) |})).
  { cbn [step cl at_pc]. rewrite Hfrom. cbn [recv_ready].
    unfold dispatch. change (Byte.eqb MsgInput MsgOutput) with true. cbv iota.
    unfold send. cbn [get_chan]. rewrite Hout. reflexivity. }
  rewrite H2. cbn [step cl at_pc bind emit].
  unfold continue_loop. rewrite Hloop. reflexivity.
Qed.

Lemma input_echo_round_trip_witness :
  step (running 1%nat) (Input [x6c; x73] None)
    = Some ([WsWrite BinaryMessage (MsgInput :: [x6c; x73])],
            Some (running 1%nat)) /\
  run (running 1%nat)
      [Input [x6c; x73] None; FromWs (MsgInput :: [x6c; x73]); Receive COutput]
    = Some ([WsWrite BinaryMessage (MsgInput :: [x6c; x73]);
             ChanSend COutput (Bytes [x6c; x73]);
             Delivered COutput (Bytes [x6c; x73])],
            Some (running 1%nat)).
Proof.
  apply (input_echo_round_trip (running 1%nat) [x6c; x73]
           (selecting_running 1%nat)).
  discriminate.
Defined.

Lemma loop_head_shut_down (c : Client) : loop_head (shut_down c) = Idle.
Proof.
  destruct c as [ws wt db out inp fc fce pg er tw fw sd cc isd cld].
  destruct cld; reflexivity.
Qed.

Lemma locked_write_free (data : bytes) (werr : option string) (c : Client) (w : conn) :
  flowControl c = false ->
  WsClient c = Some w ->
  locked_write data werr c
    = (emit (WsWrite BinaryMessage data) ;;;
       match werr with
       | Some e =>
           emit Trace ;;;
           c' <- doShutdown (Some e) c ;;
           ret {| cl := c';
                  at_pc := if negb (isShutdown c)
                           then Sending CError (Err e) else Idle |}
       | None => continue_loop c
       end).
Proof.
  intros Hf Hw. unfold locked_write, unlock_gate.
  cbn [WsClient flowControl flowControlEngaged set_gate].
  rewrite Hw. cbn [lift bind emit ret app].
  rewrite set_gate_twice.
  replace (set_gate (flowControlEngaged c) false c) with c
    by (destruct c; cbn in *; subst; reflexivity).
  destruct werr as [e|]; [|reflexivity].
  cbn [emit bind].
  destruct (c' <- doShutdown (Some e) c ;;
            ret {| cl := c';
                   at_pc := if negb (isShutdown c)
                            then Sending CError (Err e) else Idle |})
    as [t [r|]]; reflexivity.
Qed.

(** With the gate disengaged, a non-empty frame taken from the control
    queue is written to the socket as it is, once, and the mutex is free
    again afterwards: the client is unchanged.  The frames of [Pause],
    [Resume], [RequestBaudrateDetection] and [ResizeTerminal] are of that
    kind. *)
Theorem control_frame_written (s : sys) (data : bytes) (cols rows : Z) :
  selecting s ->
  flowControlEngaged (cl s) = false ->
  data <> [] ->
  step s (ToWs data None) = Some ([WsWrite BinaryMessage data], Some s) /\
  Forall (fun frame =>
            step s (ToWs frame None)
              = Some ([WsWrite BinaryMessage frame], Some s))
         [Pause; Resume; RequestBaudrateDetection; ResizeTerminal cols rows].
Proof.
  intros Hsel He Hd.
  destruct (selecting_facts s Hsel)
    as (HI & Hpc & Hloop & Hfrom & Hto & Hin & Hout & _ & _ & _ & w & Hw).
  pose proof HI as (Hgate & _). rewrite He in Hgate.
  clear Hsel HI. destruct s as [c p]. cbn [cl at_pc] in *. subst p.
  assert (H : forall frame,
             frame <> [] ->
             step {| cl := c; at_pc := AtSelect |} (ToWs frame None)
               = Some ([WsWrite BinaryMessage frame],
                       Some {| cl := c; at_pc := AtSelect |})).
  { intros frame Hne. cbn [step cl at_pc]. rewrite Hto. cbn [recv_ready].
    destruct frame as [|b frame]; [congruence|].
    rewrite Hgate, (locked_write_free _ _ c w Hgate Hw).
    unfold continue_loop. rewrite Hloop. reflexivity. }
  split; [exact (H data Hd)|].
  repeat constructor; apply H; discriminate.
Qed.

Lemma control_frame_written_witness :
  step (running 1%nat) (ToWs [MsgJsonData; x7d] None)
    = Some ([WsWrite BinaryMessage [MsgJsonData; x7d]], Some (running 1%nat)) /\
  Forall (fun frame =>
            step (running 1%nat) (ToWs frame None)
              = Some ([WsWrite BinaryMessage frame], Some (running 1%nat)))
         [Pause; Resume; RequestBaudrateDetection; ResizeTerminal 80 24].
Proof.
  apply (control_frame_written (running 1%nat) [MsgJsonData; x7d] 80 24
           (selecting_running 1%nat) eq_refl).
  discriminate.
Defined.

(** A write that fails ends the epoch: the frame was handed to the socket,
    the shutdown channel is closed, the gate is disengaged, the error of the
    write is sent on the error port once, and when a reader has taken it the
    loop has returned.  This holds for the input port whatever the gate, and
    for the control queue when the gate is disengaged. *)
Theorem failed_write_shuts_down (s : sys) (data : bytes) (e : string) :
  selecting s ->
  data <> [] ->
  run s [Input data (Some e); Receive CError]
    = Some ([WsWrite BinaryMessage (MsgInput :: data); Trace;
             ChanClose CShutdown; ChanSend CError (Err e);
             Delivered CError (Err e)],
            Some {| cl := shut_down (cl s); at_pc := Idle |}) /\
  (flowControlEngaged (cl s) = false ->
   run s [ToWs data (Some e); Receive CError]
     = Some ([WsWrite BinaryMessage data; Trace;
              ChanClose CShutdown; ChanSend CError (Err e);
              Delivered CError (Err e)],
             Some {| cl := shut_down (cl s); at_pc := Idle |})).
Proof.
  intros Hsel Hd.
  destruct (selecting_facts s Hsel)
    as (HI & Hpc & Hloop & Hfrom & Hto & Hin & Hout & _ & _ & _ & w & Hw).
  destruct Hsel as (_ & _ & Hlive & _).
  destruct s as [c p]. cbn [cl at_pc] in *. subst p.
  pose proof (doShutdown_first (Some e) c HI Hlive) as Hds.
  fold (shut_down c) in Hds.
  destruct data as [|b data]; [congruence|].
  split.
  - cbn [run step cl at_pc]. rewrite Hin. cbn [recv_ready].
    unfold write_frame. rewrite Hw. cbn [lift bind emit ret append app].
    rewrite Hds, Hlive. reflexivity.
  - intros He. pose proof HI as (Hgate & _). rewrite He in Hgate.
    cbn [run step cl at_pc]. rewrite Hto. cbn [recv_ready].
    rewrite Hgate, (locked_write_free _ _ c w Hgate Hw).
    cbn [bind emit ret app]. rewrite Hds, Hlive. reflexivity.
Qed.

Lemma failed_write_shuts_down_witness :
  run (running 1%nat) [Input [x61] (Some "broken pipe"%string); Receive CError]
    = Some ([WsWrite BinaryMessage (MsgInput :: [x61]); Trace;
             ChanClose CShutdown; ChanSend CError (Err "broken pipe");
             Delivered CError (Err "broken pipe")],
            Some {| cl := shut_down (cl (running 1%nat)); at_pc := Idle |}) /\
  run (running 1%nat) [ToWs [x61] (Some "broken pipe"%string); Receive CError]
    = Some ([WsWrite BinaryMessage [x61]; Trace;
             ChanClose CShutdown; ChanSend CError (Err "broken pipe");
             Delivered CError (Err "broken pipe")],
            Some {| cl := shut_down (cl (running 1%nat)); at_pc := Idle |}).
Proof.
  assert (Hne : [x61] <> []) by discriminate.
  destruct (failed_write_shuts_down (running 1%nat) [x61] "broken pipe"
              (selecting_running 1%nat) Hne) as [Hin Hto].
  split; [exact Hin|exact (Hto eq_refl)].
Defined.

(** A control frame taken while the gate is engaged stops the loop: it
    waits for the mutex, and in that state no frame of the server (its
    resume among them), no queue and no signal is taken; only a call made by
    another goroutine changes the state.  When that call is the shutdown,
    the mutex is released and the waiting frame is written to the socket of
    the epoch that was just shut down, after which the loop returns. *)
Theorem control_frame_stalls_loop (s : sys) (data : bytes) (werr : option string) :
  selecting s ->
  flowControlEngaged (cl s) = true ->
  data <> [] ->
  let blocked := {| cl := cl s; at_pc := LockWrite data |} in
  step s (ToWs data werr) = Some ([], Some blocked) /\
  (forall e, external e = false -> step blocked e = None) /\
  (forall err,
      run blocked [CallDoShutdown err; LockGranted None]
        = Some (ChanClose CShutdown ::
                  match err with
                  | Some e => [ChanSend CError (Err e)]
                  | None => []
                  end ++ [WsWrite BinaryMessage data],
                Some {| cl := shut_down (cl s); at_pc := Idle |})).
Proof.
  intros Hsel He Hd blocked. unfold blocked. clear blocked.
  destruct (selecting_facts s Hsel)
    as (HI & Hpc & Hloop & Hfrom & Hto & Hin & Hout & _ & _ & _ & w & Hw).
  pose proof Hsel as (Hr & _ & Hlive & Hc).
  pose proof HI as (Hgate & _). rewrite He in Hgate.
  split; [|split].
  - exact (control_frame_waits_for_gate s data werr Hr Hpc Hc He Hd).
  - intros e Hext. destruct e; cbn in Hext; try discriminate Hext;
      cbn [step cl at_pc]; try reflexivity.
    rewrite Hgate. reflexivity.
  - intros err. cbn [run step cl at_pc].
    rewrite (doShutdown_first err (cl s) HI Hlive). fold (shut_down (cl s)).
    cbn [bind ret cl at_pc].
    assert (Hf : flowControl (shut_down (cl s)) = false) by reflexivity.
    assert (Hw' : WsClient (shut_down (cl s)) = Some w)
      by (destruct (cl s); exact Hw).
    pose proof (loop_head_shut_down (cl s)) as Hl.
    rewrite Hf, (locked_write_free _ _ _ w Hf Hw').
    unfold continue_loop. rewrite Hl.
    destruct err; reflexivity.
Qed.

Lemma control_frame_stalls_loop_witness :
  let s := {| cl := set_gate true true (dialed 1%nat); at_pc := AtSelect |} in
  let blocked := {| cl := cl s; at_pc := LockWrite Pause |} in
  step s (ToWs Pause None) = Some ([], Some blocked) /\
  (forall e, external e = false -> step blocked e = None) /\
  (forall err,
      run blocked [CallDoShutdown err; LockGranted None]
        = Some (ChanClose CShutdown ::
                  match err with
                  | Some e => [ChanSend CError (Err e)]
                  | None => []
                  end ++ [WsWrite BinaryMessage Pause],
                Some {| cl := shut_down (cl s); at_pc := Idle |})).
Proof.
  apply (control_frame_stalls_loop
           {| cl := set_gate true true (dialed 1%nat); at_pc := AtSelect |}
           Pause None).
  - split; [|repeat split].
    apply (reach_step (running 1%nat) (FromWs [MsgServerPause]) [] _
             (running_reachable 1%nat)).
    reflexivity.
  - reflexivity.
  - discriminate.
Defined.

(** [Redial] on a client that is not closed, shut down or not.  When the
    dial and the authentication succeed, the new connection replaces the
    old one, which is not closed by [Redial], the epoch is live again with a
    fresh shutdown channel, and its first shutdown with an error sends that
    error on the error port.  When the dial or the authentication fails,
    the error is returned and the client is as it was: the connection
    opened by a successful dial is dropped, not closed. *)
Theorem redial_starts_new_epoch (c : Client) (w : conn) (message : bytes) :
  Inv c ->
  closed c = false ->
  (exists c',
      Redial (DialOk w None) message c
        = ([Dial; WsWrite BinaryMessage message], Some (c', None)) /\
      WsClient c' = Some w /\
      isShutdown c' = false /\
      shutdown c' = ChOpen /\
      flowControlEngaged c' = flowControlEngaged c /\
      Inv c' /\
      (forall e, error_sends (trace (doShutdown (Some e) c')) = [e])) /\
  (forall e,
      Redial (DialFails e) message c = ([Dial; Trace], Some (c, Some e))) /\
  (forall e,
      Redial (DialOk w (Some e)) message c
        = ([Dial; WsWrite BinaryMessage message; Trace], Some (c, Some e))).
Proof.
  intros HI Hc.
  split; [|split; intros e; unfold Redial; rewrite Hc; reflexivity].
  assert (HR : Redial (DialOk w None) message c
               = ([Dial; WsWrite BinaryMessage message],
                  Some (set_isShutdown false
                          (set_chan CShutdown make_chan
                             (set_WsClient (Some w) c)), None)))
    by (unfold Redial; rewrite Hc; reflexivity).
  eexists. split; [exact HR|].
  pose proof (Redial_Inv _ _ _ _ _ _ HI HR) as HI'.
  repeat (split; [reflexivity|]).
  split; [exact HI'|].
  intros e. rewrite (doShutdown_first (Some e) _ HI' eq_refl). reflexivity.
Qed.

Lemma redial_starts_new_epoch_witness :
  (exists c',
      Redial (DialOk 2%nat None) [x7b; x7d] (shut_down (dialed 1%nat))
        = ([Dial; WsWrite BinaryMessage [x7b; x7d]], Some (c', None)) /\
      WsClient c' = Some 2%nat /\
      isShutdown c' = false /\
      shutdown c' = ChOpen /\
      flowControlEngaged c' = flowControlEngaged (shut_down (dialed 1%nat)) /\
      Inv c' /\
      (forall e, error_sends (trace (doShutdown (Some e) c')) = [e])) /\
  (forall e,
      Redial (DialFails e) [x7b; x7d] (shut_down (dialed 1%nat))
        = ([Dial; Trace], Some (shut_down (dialed 1%nat), Some e))) /\
  (forall e,
      Redial (DialOk 2%nat (Some e)) [x7b; x7d] (shut_down (dialed 1%nat))
        = ([Dial; WsWrite BinaryMessage [x7b; x7d]; Trace],
           Some (shut_down (dialed 1%nat), Some e))).
Proof.
  apply (redial_starts_new_epoch (shut_down (dialed 1%nat)) 2%nat [x7b; x7d]).
  - unfold Inv. cbn. repeat split; intros; congruence.
  - reflexivity.
Defined.

(** [Close] on a client that is not closed: the shutdown channel is closed
    when the epoch was live, then the close channel, the three ports, the
    error port and the two queues are closed, each once and in that order,
    then the connection is closed once, and the error of closing the
    connection, when there is one, is what [Close] returns.  The client is
    closed whatever that answer.  The baud port and the pong channel are
    left open. *)
Theorem close_closes_each_channel_once (c : Client) (closeErr : option string) :
  Inv c ->
  closed c = false ->
  exists w c1,
    WsClient c = Some w /\
    Close closeErr c
      = ((if isShutdown c then [] else [ChanClose CShutdown]) ++
         [ChanClose CCloseChan; ChanClose CWinTitle; ChanClose COutput;
          ChanClose CInput; ChanClose CError; ChanClose CToWs;
          ChanClose CFromWs; WsClose w] ++
         match closeErr with Some _ => [Trace; Trace] | None => [] end,
         Some (c1, closeErr)) /\
    closed c1 = true /\
    isShutdown c1 = true /\
    detectedBaudrate c1 = ChOpen /\
    pong c1 = pong c.
Proof.
  intros HI Hc.
  pose proof HI as (Hgate & Hws & Hepoch & Hopen & Hdb).
  destruct (Hopen Hc) as (H1 & H2 & H3 & H4 & H5 & H6 & H7).
  destruct (isShutdown c) eqn:Hs.
  - destruct c as [ws wt db out inp fc fce pg er tw fw sd cc isd cld].
    cbn in *. subst. destruct ws as [w|]; [|congruence].
    exists w. destruct closeErr; cbv; eexists; repeat split.
  - destruct (Hepoch eq_refl) as [Hsd _].
    unfold Close. rewrite (doShutdown_first None c HI Hs). cbn [bind].
    destruct c as [ws wt db out inp fc fce pg er tw fw sd cc isd cld].
    cbn in *. subst. destruct ws as [w|]; [|congruence].
    exists w. destruct closeErr; cbv; eexists; repeat split.
Qed.

Lemma close_closes_each_channel_once_witness :
  exists w c1,
    WsClient (dialed 1%nat) = Some w /\
    Close (Some "use of closed network connection"%string) (dialed 1%nat)
      = ((if isShutdown (dialed 1%nat) then [] else [ChanClose CShutdown]) ++
         [ChanClose CCloseChan; ChanClose CWinTitle; ChanClose COutput;
          ChanClose CInput; ChanClose CError; ChanClose CToWs;
          ChanClose CFromWs; WsClose w] ++ [Trace; Trace],
         Some (c1, Some "use of closed network connection"%string)) /\
    closed c1 = true /\
    isShutdown c1 = true /\
    detectedBaudrate c1 = ChOpen /\
    pong c1 = pong (dialed 1%nat).
Proof.
  exact (close_closes_each_channel_once (dialed 1%nat)
           (Some "use of closed network connection"%string)
           (dialed_Inv 1%nat) eq_refl).
Defined.

Lemma readLoop_stopped (c : Client) (reads : list read_result) :
  negb (closed c) && negb (isShutdown c) = false ->
  readLoop c reads = ([], Some (c, true)).
Proof. intros H. destruct reads; cbn [readLoop]; rewrite H; reflexivity. Qed.

(** [readLoop] in a live epoch: the data of the text and binary messages
    read before the first error are sent to [chanLoop], in the order read
    and nothing else; messages of other types are skipped; at the first
    error the epoch is shut down with that error, sent once on the error
    port, and the function returns without reading further; without an
    error it keeps waiting for the next message. *)
Theorem readLoop_forwards_until_error (c : Client) (reads : list read_result) :
  Inv c ->
  isShutdown c = false ->
  exists t,
    readLoop c reads
      = (t, Some (match first_error reads with
                  | Some _ => (shut_down c, true)
                  | None => (c, false)
                  end)) /\
    fromWs_sends t = frames_read reads /\
    error_sends t = match first_error reads with
                    | Some e => [e]
                    | None => []
                    end.
Proof.
  intros HI Hs.
  pose proof HI as (Hgate & Hws & Hepoch & Hopen & Hdb).
  destruct (Hepoch Hs) as [Hsd Hc].
  destruct (Hopen Hc) as (_ & _ & _ & _ & _ & _ & Hfrom).
  assert (Hlive : negb (closed c) && negb (isShutdown c) = true)
    by (rewrite Hc, Hs; reflexivity).
  destruct (c_connected c HI) as [w Hw].
  induction reads as [|r reads IH]; cbn [readLoop]; rewrite Hlive, Hw;
    cbn [lift bind app].
  - eexists. split; [reflexivity|]. split; reflexivity.
  - destruct r as [e|msgType data]; cbn [first_error frames_read].
    + rewrite (doShutdown_first (Some e) c HI Hs). fold (shut_down c).
      eexists. split; [reflexivity|]. split; reflexivity.
    + destruct IH as (t & Hrun & Hf & He).
      destruct (msgType =? wsBinaryMessage) eqn:Eb;
        destruct (msgType =? wsTextMessage) eqn:Et; cbn [negb andb orb].
      * rewrite Hfrom, Hrun. eexists. split; [reflexivity|].
        cbn. rewrite Hf, He. split; reflexivity.
      * rewrite Hfrom, Hrun. eexists. split; [reflexivity|].
        cbn. rewrite Hf, He. split; reflexivity.
      * rewrite Hfrom, Hrun. eexists. split; [reflexivity|].
        cbn. rewrite Hf, He. split; reflexivity.
      * exists t. split; [rewrite Hrun; reflexivity|]. split; assumption.
Qed.

Lemma readLoop_forwards_until_error_witness :
  exists t,
    readLoop (dialed 1%nat)
      [ReadMsg 2 [x30; x61]; ReadMsg 9 []; ReadMsg 1 [x31; x62];
       ReadErr "EOF"; ReadMsg 2 [x30; x63]]
      = (t, Some (shut_down (dialed 1%nat), true)) /\
    fromWs_sends t = [[x30; x61]; [x31; x62]] /\
    error_sends t = ["EOF"%string].
Proof.
  exact (readLoop_forwards_until_error (dialed 1%nat)
           [ReadMsg 2 [x30; x61]; ReadMsg 9 []; ReadMsg 1 [x31; x62];
            ReadErr "EOF"; ReadMsg 2 [x30; x63]]
           (dialed_Inv 1%nat) eq_refl).
Defined.

(** *** The watchdog, under any schedule *)

Lemma error_sends_at_app (t u : list (Z * action)) :
  error_sends_at (t ++ u) = error_sends_at t ++ error_sends_at u.
Proof.
  induction t as [|[i a] t IH]; [reflexivity|].
  destruct a as [| | | |n v| | |]; cbn [app error_sends_at]; try exact IH.
  destruct n; try exact IH.
  destruct v; try exact IH.
  cbn. rewrite IH. reflexivity.
Qed.

Lemma ping_failure_body (interval : Z) (c : Client) (w : wd) (after : Z)
    (e : string) :
  Inv c -> isShutdown c = false ->
  watchdog_body interval c w (PingTimer after (Some e))
    = ([(fires w (nextPing w), WsWrite PingMessage []);
        (fires w (nextPing w), Trace);
        (fires w (nextPing w), ChanClose CShutdown);
        (fires w (nextPing w), ChanSend CError (Err e))],
       Some (shut_down c, None)).
Proof.
  intros HI Hs. unfold watchdog_body.
  destruct (c_connected c HI) as [x Hx]. rewrite Hx.
  cbn [lift bind emit].
  rewrite (doShutdown_first (Some e) c HI Hs). reflexivity.
Qed.

Lemma signals_not_ready (c : Client) (w : wd) (now : Z) :
  Inv c -> isShutdown c = false ->
  wd_enabled c w (WdCloseChan now) = false /\
  wd_enabled c w (WdShutdown now) = false.
Proof.
  intros HI Hs. pose proof HI as (_ & _ & Hepoch & Hopen & _).
  destruct (Hepoch Hs) as [Hsd Hc]. destruct (Hopen Hc) as (Hcc & _).
  cbn [wd_enabled]. rewrite Hsd, Hcc. split; reflexivity.
Qed.

(** Whatever the timers, the acknowledgments and the answers of the socket,
    a run of the watchdog in a live epoch sends at most one error on the
    error port, and when it has sent one the epoch is shut down and the
    watchdog has returned. *)
Theorem watchdog_sends_at_most_one_error (interval : Z) (c : Client)
    (events : list wd_event) :
  Inv c ->
  isShutdown c = false ->
  forall w t r,
    watchdog_loop interval c w events = Some (t, r) ->
    (List.length (error_sends_at t) <= 1)%nat /\
    (error_sends_at t <> [] -> r = Some (shut_down c, None)).
Proof.
  intros HI Hs.
  induction events as [|e events IH]; intros w t r Hrun;
    cbn [watchdog_loop] in Hrun; rewrite (loop_test c HI Hs) in Hrun.
  - inversion Hrun; subst. cbn. split; [lia|congruence].
  - destruct (wd_enabled c w e) eqn:Hen; [|discriminate].
    destruct e as [after [err|]| |now|now|now].
    + rewrite (ping_failure_body interval c w after err HI Hs) in Hrun.
      destruct events; [|discriminate].
      inversion Hrun; subst. cbn. split; [lia|reflexivity].
    + rewrite (ping_body interval c HI w after) in Hrun.
      destruct (watchdog_loop interval c _ events) as [[t' r']|] eqn:Hrest;
        [|discriminate].
      inversion Hrun; subst. cbn [app error_sends_at].
      exact (IH _ _ _ Hrest).
    + rewrite (timeout_body interval c HI Hs w) in Hrun.
      destruct events; [|discriminate].
      inversion Hrun; subst. cbn. split; [lia|reflexivity].
    + cbn [watchdog_body ret] in Hrun.
      destruct (watchdog_loop interval c _ events) as [[t' r']|] eqn:Hrest;
        [|discriminate].
      inversion Hrun; subst. cbn [app].
      exact (IH _ _ _ Hrest).
    + destruct (signals_not_ready c w now HI Hs) as [H _]. congruence.
    + destruct (signals_not_ready c w now HI Hs) as [_ H]. congruence.
Qed.

Lemma watchdog_sends_at_most_one_error_witness :
  let events := [Pong 1; PingTimer (5 * Second) (Some "broken pipe"%string)] in
  let t := [(5 * Second, WsWrite PingMessage []); (5 * Second, Trace);
            (5 * Second, ChanClose CShutdown);
            (5 * Second, ChanSend CError (Err "broken pipe"))] in
  watchdog_loop 5 (dialed 1%nat) (watchdog_start 5 0 0) events
    = Some (t, Some (shut_down (dialed 1%nat), None)) /\
  (List.length (error_sends_at t) <= 1)%nat /\
  (error_sends_at t <> [] ->
   Some (shut_down (dialed 1%nat), None : option wd)
     = Some (shut_down (dialed 1%nat), None)).
Proof.
  cbv zeta. split; [reflexivity|].
  exact (watchdog_sends_at_most_one_error 5 (dialed 1%nat)
           [Pong 1; PingTimer (5 * Second) (Some "broken pipe"%string)]
           (dialed_Inv 1%nat) eq_refl (watchdog_start 5 0 0) _ _ eq_refl).
Defined.

(** The timeout is never taken early.  In a run of the watchdog that ends
    with its timeout, whatever the pings and the acknowledgments before it,
    the one error sent is "server is not responding, closing", and it is
    sent no earlier than the deadline in force: [interval + 1] seconds
    after the latest acknowledgment, or [2 * interval + 1] seconds after
    the start when there was none. *)
Theorem timeout_not_before_deadline (interval start : Z) (c : Client)
    (events : list wd_event) :
  0 < interval ->
  (2 * interval + 1) * Second < 2 ^ 63 ->
  Inv c ->
  isShutdown c = false ->
  forall t r,
    watchdog interval start c (events ++ [TimeoutTimer]) = Some (t, r) ->
    exists T,
      error_sends_at t = [(T, not_responding)] /\
      deadline_after interval (start + (2 * interval + 1) * Second) events <= T.
Proof.
  intros Hpos Hsmall HI Hs t r Hrun. unfold watchdog in Hrun.
  rewrite (watchdog_start_small interval start Hpos Hsmall) in Hrun.
  set (w0 := {| nextPing := start + interval * Second;
                nextTimeout := start + (2 * interval + 1) * Second;
                entered := start |}) in Hrun.
  change (start + (2 * interval + 1) * Second) with (nextTimeout w0).
  assert (Hw0 : nextTimeout w0 - entered w0 <= (2 * interval + 1) * Second)
    by (unfold w0; cbn [nextTimeout entered]; lia).
  clearbody w0. revert w0 t r Hw0 Hrun.
  induction events as [|e events IH]; intros w t r Hw Hrun;
    cbn [app watchdog_loop] in Hrun; rewrite (loop_test c HI Hs) in Hrun.
  - destruct (wd_enabled c w TimeoutTimer); [|discriminate].
    rewrite (timeout_body interval c HI Hs w) in Hrun.
    inversion Hrun; subst. eexists. split; [reflexivity|].
    cbn [deadline_after]. unfold fires, Sub. lia.
  - destruct (wd_enabled c w e) eqn:Hen; [|discriminate].
    destruct e as [after [err|]| |now|now|now].
    + rewrite (ping_failure_body interval c w after err HI Hs) in Hrun.
      destruct events; discriminate.
    + rewrite (ping_body interval c HI w after) in Hrun.
      set (w' := {| nextPing := Add after (pingDuration interval);
                    nextTimeout := nextTimeout w;
                    entered := after |}) in *.
      destruct (watchdog_loop interval c w' (events ++ [TimeoutTimer]))
        as [[t' r']|] eqn:Hrest; [|discriminate].
      inversion Hrun; subst.
      cbn [wd_enabled] in Hen. apply andb_prop in Hen. destruct Hen as [_ Hle].
      apply Z.leb_le in Hle.
      assert (Hge : entered w <= fires w (nextPing w)) by (unfold fires; lia).
      assert (Hw' : nextTimeout w' - entered w' <= (2 * interval + 1) * Second)
        by (unfold w'; cbn [nextTimeout entered]; lia).
      destruct (IH w' _ _ Hw' Hrest) as (T & HT & Hd).
      exists T. split; [exact HT|exact Hd].
    + rewrite (timeout_body interval c HI Hs w) in Hrun.
      destruct events; discriminate.
    + cbn [watchdog_body ret] in Hrun.
      set (w' := {| nextPing := nextPing w;
                    nextTimeout := Add now (timeoutDuration interval);
                    entered := now |}) in *.
      destruct (watchdog_loop interval c w' (events ++ [TimeoutTimer]))
        as [[t' r']|] eqn:Hrest; [|discriminate].
      inversion Hrun; subst.
      assert (Hw' : nextTimeout w' - entered w' <= (2 * interval + 1) * Second).
      { unfold w', Add. cbn [nextTimeout entered].
        rewrite (timeoutDuration_small interval Hpos Hsmall).
        unfold Second in *. lia. }
      destruct (IH w' _ _ Hw' Hrest) as (T & HT & Hd).
      exists T. split; [exact HT|exact Hd].
    + destruct (signals_not_ready c w now HI Hs) as [H _]. congruence.
    + destruct (signals_not_ready c w now HI Hs) as [_ H]. congruence.
Qed.

Lemma timeout_not_before_deadline_witness :
  let events := [PingTimer (5 * Second) None; Pong (7 * Second);
                 PingTimer (10 * Second) None] in
  let t := [(5 * Second, WsWrite PingMessage []);
            (10 * Second, WsWrite PingMessage []);
            (13 * Second, Trace); (13 * Second, ChanClose CShutdown);
            (13 * Second, ChanSend CError (Err not_responding))] in
  watchdog 5 0 (dialed 1%nat) (events ++ [TimeoutTimer])
    = Some (t, Some (shut_down (dialed 1%nat), None)) /\
  exists T,
    error_sends_at t = [(T, not_responding)] /\
    deadline_after 5 (0 + (2 * 5 + 1) * Second) events <= T.
Proof.
  cbv zeta. split; [reflexivity|].
  exact (timeout_not_before_deadline 5 0 (dialed 1%nat)
           [PingTimer (5 * Second) None; Pong (7 * Second);
            PingTimer (10 * Second) None]
           eq_refl eq_refl (dialed_Inv 1%nat) eq_refl _ _ eq_refl).
Defined.

(** *** Numbers on the wire *)

Lemma ParseUint_loop_overflow (ds : list Z) :
  forall n,
    0 <= n <= maxUint64 ->
    Forall is_digit ds ->
    maxUint64 < decimal n ds ->
    ParseUint_loop (map digit_char ds) n = inr ErrRange.
Proof.
  induction ds as [|d ds IH]; intros n Hn Hds Hover.
  - cbn [decimal fold_left] in Hover. lia.
  - inversion Hds as [|? ? Hd Hds']; subst.
    cbn [map ParseUint_loop decimal fold_left] in *.
    rewrite (digit_value_char d Hd).
    pose proof Hd as Hd'. unfold is_digit in Hd'. unfold maxUint64 in *.
    rewrite (geb_false d 10) by lia.
    destruct (n >=? (2 ^ 64 - 1) / 10 + 1) eqn:Ecut; [reflexivity|].
    rewrite Z.geb_leb in Ecut. apply Z.leb_gt in Ecut.
    change ((2 ^ 64 - 1) / 10 + 1) with 1844674407370955162 in Ecut.
    destruct (Z_le_gt_dec (n * 10 + d) (2 ^ 64 - 1)) as [Hfit|Hwrap].
    + rewrite Z.mod_small by lia.
      replace (n * 10 + d <? n * 10) with false by (symmetry; apply Z.ltb_ge; lia).
      rewrite (gtb_false (n * 10 + d) (2 ^ 64 - 1)) by lia.
      cbn [orb]. apply IH; [lia|exact Hds'|exact Hover].
    + replace ((n * 10 + d) mod 2 ^ 64) with (n * 10 + d - 2 ^ 64).
      * replace (n * 10 + d - 2 ^ 64 <? n * 10) with true
          by (symmetry; apply Z.ltb_lt; lia).
        reflexivity.
      * apply Z.mod_unique with (q := 1); lia.
Qed.

Lemma ParseUint_digits (ds : list Z) :
  ds <> [] ->
  Forall is_digit ds ->
  ParseUint (map digit_char ds)
    = if decimal 0 ds <=? maxUint64 then inl (decimal 0 ds) else inr ErrRange.
Proof.
  intros Hne Hds. destruct ds as [|d ds]; [congruence|].
  unfold ParseUint. cbn [map].
  change (digit_char d :: map digit_char ds) with (map digit_char (d :: ds)).
  destruct (decimal 0 (d :: ds) <=? maxUint64) eqn:E.
  - apply Z.leb_le in E. apply ParseUint_loop_decimal; [lia|exact Hds|exact E].
  - apply Z.leb_gt in E. apply ParseUint_loop_overflow;
      [unfold maxUint64; lia|exact Hds|exact E].
Qed.

Lemma decimal_nonneg (ds : list Z) :
  Forall is_digit ds -> 0 <= decimal 0 ds.
Proof. intros H. apply (decimal_grows ds 0); [lia|exact H]. Qed.

(** Decimal digits, bare or signed. *)
Lemma ParseInt_digits_signed (ds : list Z) :
  ds <> [] ->
  Forall is_digit ds ->
  ParseInt (map digit_char ds)
    = (if decimal 0 ds <? 2 ^ 63 then inl (decimal 0 ds) else inr ErrRange) /\
  ParseInt (x2b :: map digit_char ds)
    = (if decimal 0 ds <? 2 ^ 63 then inl (decimal 0 ds) else inr ErrRange) /\
  ParseInt (x2d :: map digit_char ds)
    = (if decimal 0 ds <=? 2 ^ 63 then inl (- decimal 0 ds) else inr ErrRange).
Proof.
  intros Hne Hds.
  pose proof (ParseUint_digits ds Hne Hds) as HU.
  pose proof (decimal_nonneg ds Hds) as Hv.
  assert (Hplus : ParseInt (x2b :: map digit_char ds)
                  = (if decimal 0 ds <? 2 ^ 63
                     then inl (decimal 0 ds) else inr ErrRange)).
  { unfold ParseInt. change (Byte.eqb x2b x2b) with true. cbv iota.
    rewrite HU. unfold maxUint64.
    destruct (decimal 0 ds <=? 2 ^ 64 - 1) eqn:E1;
      destruct (decimal 0 ds <? 2 ^ 63) eqn:E2;
      try (apply Z.leb_le in E1); try (apply Z.leb_gt in E1);
      try (apply Z.ltb_lt in E2); try (apply Z.ltb_ge in E2);
      try lia; try reflexivity.
    - rewrite (geb_false _ _ E2). reflexivity.
    - replace (decimal 0 ds >=? 2 ^ 63) with true
        by (symmetry; rewrite Z.geb_leb; apply Z.leb_le; lia).
      reflexivity. }
  split; [|split; [exact Hplus|]].
  - destruct ds as [|d ds]; [congruence|].
    inversion Hds as [|? ? Hd Hds']; subst.
    rewrite <- Hplus. cbn [map]. unfold ParseInt.
    destruct (digit_char_no_sign d Hd) as [-> ->].
    change (Byte.eqb x2b x2b) with true. reflexivity.
  - unfold ParseInt. change (Byte.eqb x2d x2b) with false.
    change (Byte.eqb x2d x2d) with true. cbv iota.
    rewrite HU. unfold maxUint64.
    destruct (decimal 0 ds <=? 2 ^ 64 - 1) eqn:E1;
      destruct (decimal 0 ds <=? 2 ^ 63) eqn:E2;
      try (apply Z.leb_le in E1); try (apply Z.leb_gt in E1);
      try (apply Z.leb_le in E2); try (apply Z.leb_gt in E2);
      try lia; try reflexivity; cbn [negb andb].
    + rewrite (gtb_false _ _ E2). reflexivity.
    + replace (decimal 0 ds >? 2 ^ 63) with true
        by (symmetry; rewrite Z.gtb_ltb; apply Z.ltb_lt; lia).
      reflexivity.
Qed.

(** What [chanLoop] accepts as a detected baud rate.  A string of decimal
    digits, alone or after a '+', is the number it writes when that number
    is below [2 ^ 63], and is out of range otherwise; after a '-' it is the
    opposite number, down to [- 2 ^ 63]; the empty payload (that of the
    client's own request) and a sign alone are syntax errors. *)
Theorem ParseInt_sign_and_range (ds : list Z) :
  ds <> [] ->
  Forall is_digit ds ->
  ParseInt (map digit_char ds)
    = (if decimal 0 ds <? 2 ^ 63 then inl (decimal 0 ds) else inr ErrRange) /\
  ParseInt (x2b :: map digit_char ds)
    = (if decimal 0 ds <? 2 ^ 63 then inl (decimal 0 ds) else inr ErrRange) /\
  ParseInt (x2d :: map digit_char ds)
    = (if decimal 0 ds <=? 2 ^ 63 then inl (- decimal 0 ds) else inr ErrRange) /\
  ParseInt [] = inr ErrSyntax /\
  ParseInt [x2b] = inr ErrSyntax /\
  ParseInt [x2d] = inr ErrSyntax.
Proof.
  intros Hne Hds.
  destruct (ParseInt_digits_signed ds Hne Hds) as (Hbare & Hplus & Hminus).
  split; [exact Hbare|]. split; [exact Hplus|]. split; [exact Hminus|].
  repeat split.
Qed.

Lemma ParseInt_sign_and_range_witness :
  ParseInt (map digit_char [9; 6; 0; 0]) = inl 9600 /\
  ParseInt (x2b :: map digit_char [9; 6; 0; 0]) = inl 9600 /\
  ParseInt (x2d :: map digit_char [9; 6; 0; 0]) = inl (- 9600) /\
  ParseInt [] = inr ErrSyntax /\
  ParseInt [x2b] = inr ErrSyntax /\
  ParseInt [x2d] = inr ErrSyntax.
Proof.
  apply (ParseInt_sign_and_range [9; 6; 0; 0]).
  - discriminate.
  - repeat constructor; unfold is_digit; lia.
Defined.

Lemma pow10_succ (k : nat) : 10 ^ Z.of_nat (S k) = 10 * 10 ^ Z.of_nat k.
Proof. rewrite Nat2Z.inj_succ. apply Z.pow_succ_r. lia. Qed.

Lemma digits_of_decimal (fuel : nat) :
  forall n acc,
    0 <= n < 10 ^ Z.of_nat (S fuel) ->
    decimal 0 (digits_of fuel n acc) = decimal n acc.
Proof.
  induction fuel as [|fuel IH]; intros n acc Hn.
  - reflexivity.
  - cbn [digits_of]. destruct (n <? 10) eqn:E; [reflexivity|].
    apply Z.ltb_ge in E. rewrite pow10_succ in Hn.
    rewrite IH.
    + cbn [decimal fold_left]. unfold decimal.
      replace (n / 10 * 10 + n mod 10) with n; [reflexivity|].
      pose proof (Z.div_mod n 10 ltac:(lia)). lia.
    + split; [apply Z.div_pos; lia|].
      apply Z.div_lt_upper_bound; lia.
Qed.

Lemma digits_of_digits (fuel : nat) :
  forall n acc,
    0 <= n < 10 ^ Z.of_nat (S fuel) ->
    Forall is_digit acc ->
    Forall is_digit (digits_of fuel n acc).
Proof.
  induction fuel as [|fuel IH]; intros n acc Hn Hacc.
  - cbn [digits_of]. constructor; [|exact Hacc].
    change (10 ^ Z.of_nat 1) with 10 in Hn. unfold is_digit. lia.
  - cbn [digits_of]. destruct (n <? 10) eqn:E.
    + apply Z.ltb_lt in E. constructor; [unfold is_digit; lia|exact Hacc].
    + apply Z.ltb_ge in E. rewrite pow10_succ in Hn. apply IH.
      * split; [apply Z.div_pos; lia|].
        apply Z.div_lt_upper_bound; lia.
      * constructor; [|exact Hacc].
        pose proof (Z.mod_pos_bound n 10 ltac:(lia)). unfold is_digit. lia.
Qed.

Lemma digits_of_nonempty (fuel : nat) (n : Z) (acc : list Z) :
  digits_of fuel n acc <> [].
Proof.
  revert n acc. induction fuel as [|fuel IH]; intros n acc; cbn [digits_of].
  - discriminate.
  - destruct (n <? 10); [discriminate|apply IH].
Qed.

Lemma int64_below_pow10 (n : Z) : 0 <= n <= 2 ^ 63 -> 0 <= n < 10 ^ Z.of_nat 21.
Proof.
  intros H. change (10 ^ Z.of_nat 21) with 1000000000000000000000. lia.
Qed.

(** What [FormatInt] writes for an [int64], [ParseInt] reads back. *)
Lemma FormatInt_ParseInt (n : Z) :
  - 2 ^ 63 <= n < 2 ^ 63 -> ParseInt (FormatInt n) = inl n.
Proof.
  intros Hn. unfold FormatInt. destruct (n <? 0) eqn:E.
  - apply Z.ltb_lt in E.
    pose proof (int64_below_pow10 (- n) ltac:(lia)) as Hp.
    destruct (ParseInt_digits_signed (digits_of 20 (- n) [])) as (_ & _ & Hm).
    + apply digits_of_nonempty.
    + apply digits_of_digits; [exact Hp|constructor].
    + rewrite Hm, (digits_of_decimal 20 (- n) [] Hp). cbn [decimal fold_left].
      replace (- n <=? 2 ^ 63) with true by (symmetry; apply Z.leb_le; lia).
      f_equal. lia.
  - apply Z.ltb_ge in E.
    pose proof (int64_below_pow10 n ltac:(lia)) as Hp.
    destruct (ParseInt_digits_signed (digits_of 20 n [])) as (Hb & _ & _).
    + apply digits_of_nonempty.
    + apply digits_of_digits; [exact Hp|constructor].
    + rewrite Hb, (digits_of_decimal 20 n [] Hp). cbn [decimal fold_left].
      replace (n <? 2 ^ 63) with true by (symmetry; apply Z.ltb_lt; lia).
      reflexivity.
Qed.

(** The decimal text of any [int64] is a detected baud rate that the loop
    delivers: the frame 'B' followed by what [FormatInt] writes for [n]
    sends [n] on the baud port, and a reader of the port receives [n]. *)
Theorem formatted_baudrate_delivered (s : sys) (n : Z) :
  selecting s ->
  - 2 ^ 63 <= n < 2 ^ 63 ->
  run s [FromWs (MsgDetectBaudrate :: FormatInt n); Receive CDetectedBaudrate]
    = Some ([ChanSend CDetectedBaudrate (Int64 n);
             Delivered CDetectedBaudrate (Int64 n)],
            Some s).
Proof.
  intros Hsel Hn.
  destruct (selecting_facts s Hsel)
    as (HI & Hpc & Hloop & Hfrom & _).
  pose proof HI as (_ & _ & _ & _ & Hdb).
  clear Hsel HI. destruct s as [c p]. cbn [cl at_pc] in *. subst p.
  cbn [run step cl at_pc]. rewrite Hfrom. cbn [recv_ready].
  unfold dispatch.
  change (Byte.eqb MsgDetectBaudrate MsgOutput) with false.
  change (Byte.eqb MsgDetectBaudrate MsgServerPause) with false.
  change (Byte.eqb MsgDetectBaudrate MsgServerResume) with false.
  change (Byte.eqb MsgDetectBaudrate MsgSetWindowTitle) with false.
  change (Byte.eqb MsgDetectBaudrate MsgDetectBaudrate) with true.
  cbv iota. rewrite Hdb. cbn [drain_chan].
  rewrite (FormatInt_ParseInt n Hn).
  unfold send. cbn [get_chan]. rewrite Hdb.
  cbn [bind emit ret step cl at_pc app]. unfold continue_loop.
  rewrite Hloop. reflexivity.
Qed.

Lemma formatted_baudrate_delivered_witness :
  run (running 1%nat)
      [FromWs (MsgDetectBaudrate :: FormatInt 115200); Receive CDetectedBaudrate]
    = Some ([ChanSend CDetectedBaudrate (Int64 115200);
             Delivered CDetectedBaudrate (Int64 115200)],
            Some (running 1%nat)).
Proof.
  apply (formatted_baudrate_delivered (running 1%nat) 115200
           (selecting_running 1%nat)).
  split; [vm_compute; discriminate|vm_compute; reflexivity].
Defined.

Lemma split_at_separator {A} (x : A) (a a' l l' : list A) :
  ~ In x a -> ~ In x a' ->
  a ++ x :: l = a' ++ x :: l' ->
  a = a' /\ l = l'.
Proof.
  revert a'. induction a as [|y a IH]; intros a' Ha Ha' H.
  - destruct a' as [|y' a']; cbn in H.
    + inversion H. split; reflexivity.
    + inversion H; subst. exfalso. apply Ha'. left. reflexivity.
  - destruct a' as [|y' a']; cbn in H.
    + inversion H; subst. exfalso. apply Ha. left. reflexivity.
    + inversion H; subst.
      destruct (IH a') as [-> ->]; try assumption.
      * intros Hin. apply Ha. right. exact Hin.
      * intros Hin. apply Ha'. right. exact Hin.
      * split; reflexivity.
Qed.

Lemma digit_chars_no_comma (ds : list Z) :
  Forall is_digit ds -> ~ In x2c (map digit_char ds).
Proof.
  induction 1 as [|d ds Hd Hds IH]; [intros []|].
  cbn [map]. intros [H|H]; [|exact (IH H)].
  destruct (digit_cases d Hd)
    as [->|[->|[->|[->|[->|[->|[->|[->|[->| ->]]]]]]]]]; discriminate H.
Qed.

Lemma FormatInt_no_comma (n : Z) :
  - 2 ^ 63 <= n < 2 ^ 63 -> ~ In x2c (FormatInt n).
Proof.
  intros Hn. unfold FormatInt. destruct (n <? 0) eqn:E.
  - apply Z.ltb_lt in E. intros [H|H]; [discriminate H|].
    revert H. apply digit_chars_no_comma, digits_of_digits; [|constructor].
    apply int64_below_pow10. lia.
  - apply Z.ltb_ge in E.
    apply digit_chars_no_comma, digits_of_digits; [|constructor].
    apply int64_below_pow10. lia.
Qed.

Lemma FormatInt_injective (n m : Z) :
  - 2 ^ 63 <= n < 2 ^ 63 -> - 2 ^ 63 <= m < 2 ^ 63 ->
  FormatInt n = FormatInt m -> n = m.
Proof.
  intros Hn Hm H.
  pose proof (FormatInt_ParseInt n Hn) as Pn.
  pose proof (FormatInt_ParseInt m Hm) as Pm.
  rewrite H, Pm in Pn. inversion Pn. reflexivity.
Qed.

(** *** Reading the resize frame back

    A reader of the JSON objects whose members are integers, as a server
    reads the payload of the resize frame: an opening brace, members
    ["key":number] separated by commas, a closing brace, and nothing
    after it. *)

(** The bytes up to the closing quote of a key, and what follows it. *)
Fixpoint read_until_quote (s : bytes) : option (bytes * bytes) :=
  match s with
  | [] => None
  | b :: rest =>
      if Byte.eqb b x22 then Some ([], rest)
      else match read_until_quote rest with
           | Some (key, rest') => Some (b :: key, rest')
           | None => None
           end
  end.

(** The characters of a number: the minus sign and the decimal digits. *)
Definition is_number_char (b : byte) : bool :=
  Byte.eqb b x2d ||
  (let n := Z.of_N (Byte.to_N b) in (48 <=? n) && (n <=? 57)).

(** The longest prefix made of number characters, and what follows it. *)
Fixpoint span_number (s : bytes) : bytes * bytes :=
  match s with
  | [] => ([], [])
  | b :: rest =>
      if is_number_char b
      then let (num, rest') := span_number rest in (b :: num, rest')
      else ([], s)
  end.

(** One member: a quoted key, a colon, a number. *)
Definition read_member (s : bytes) : option ((bytes * Z) * bytes) :=
  match s with
  | b :: rest =>
      if Byte.eqb b x22 then
        match read_until_quote rest with
        | Some (key, c :: rest') =>
            if Byte.eqb c x3a then
              let (num, rest'') := span_number rest' in
              match ParseInt num with
              | inl n => Some ((key, n), rest'')
              | inr _ => None
              end
            else None
        | _ => None
        end
      else None
  | [] => None
  end.

(** The members up to the closing brace, which must end the text. *)
Fixpoint read_members (fuel : nat) (s : bytes) : option (list (bytes * Z)) :=
  match fuel with
  | O => None
  | S fuel' =>
      match read_member s with
      | None => None
      | Some (member, rest) =>
          match rest with
          | [] => None
          | [b] => if Byte.eqb b x7d then Some [member] else None
          | b :: rest' =>
              if Byte.eqb b x2c
              then match read_members fuel' rest' with
                   | Some members => Some (member :: members)
                   | None => None
                   end
              else None
          end
      end
  end.

Definition read_object (s : bytes) : option (list (bytes * Z)) :=
  match s with
  | b :: rest =>
      if Byte.eqb b x7b then read_members (List.length rest) rest else None
  | [] => None
  end.

Lemma digit_chars_are_number (ds : list Z) :
  Forall is_digit ds ->
  Forall (fun b => is_number_char b = true) (map digit_char ds).
Proof.
  induction 1 as [|d ds Hd Hds IH]; [constructor|].
  cbn [map]. constructor; [|exact IH].
  destruct (digit_cases d Hd)
    as [->|[->|[->|[->|[->|[->|[->|[->|[->| ->]]]]]]]]]; reflexivity.
Qed.

Lemma FormatInt_number_chars (n : Z) :
  - 2 ^ 63 <= n < 2 ^ 63 ->
  Forall (fun b => is_number_char b = true) (FormatInt n).
Proof.
  intros Hn. unfold FormatInt. destruct (n <? 0) eqn:E.
  - apply Z.ltb_lt in E. constructor; [reflexivity|].
    apply digit_chars_are_number, digits_of_digits; [|constructor].
    apply int64_below_pow10. lia.
  - apply Z.ltb_ge in E.
    apply digit_chars_are_number, digits_of_digits; [|constructor].
    apply int64_below_pow10. lia.
Qed.

Lemma span_number_app (num rest : bytes) :
  Forall (fun b => is_number_char b = true) num ->
  match rest with [] => True | b :: _ => is_number_char b = false end ->
  span_number (num ++ rest) = (num, rest).
Proof.
  intros Hnum Hrest. induction Hnum as [|b num Hb Hnum IH].
  - destruct rest as [|b rest]; [reflexivity|].
    change (span_number ([] ++ b :: rest))
      with (if is_number_char b
            then let (num, rest') := span_number rest in (b :: num, rest')
            else ([], b :: rest)).
    rewrite Hrest. reflexivity.
  - change (span_number ((b :: num) ++ rest))
      with (if is_number_char b
            then let (num', rest') := span_number (num ++ rest) in
                 (b :: num', rest')
            else ([], b :: num ++ rest)).
    rewrite Hb, IH. reflexivity.
Qed.

(** A member written as [json.Marshal] writes it is read back as its key
    and its value, and the reader stops where the number ends. *)
Lemma read_member_written (key : bytes) (n : Z) (rest : bytes) :
  ~ In x22 key ->
  - 2 ^ 63 <= n < 2 ^ 63 ->
  match rest with [] => True | b :: _ => is_number_char b = false end ->
  read_member (x22 :: key ++ x22 :: x3a :: FormatInt n ++ rest)
    = Some ((key, n), rest).
Proof.
  intros Hkey Hn Hrest. unfold read_member.
  change (Byte.eqb x22 x22) with true. cbv iota.
  assert (Hq : read_until_quote (key ++ x22 :: x3a :: FormatInt n ++ rest)
               = Some (key, x3a :: FormatInt n ++ rest)).
  { induction key as [|b key IH]; cbn [app read_until_quote].
    - reflexivity.
    - rewrite MuxFacts.byte_eqb_neq
        by (intros ->; apply Hkey; left; reflexivity).
      rewrite IH by (intros Hin; apply Hkey; right; exact Hin).
      reflexivity. }
  rewrite Hq. change (Byte.eqb x3a x3a) with true. cbv iota.
  rewrite (span_number_app _ _ (FormatInt_number_chars n Hn) Hrest).
  rewrite (FormatInt_ParseInt n Hn). reflexivity.
Qed.

Definition key_columns : bytes := list_byte_of_string "columns".
Definition key_rows : bytes := list_byte_of_string "rows".

(** The frame of [ResizeTerminal] is the tag '1' followed by a JSON object
    with two members: read back, the payload gives the member "columns"
    with the number of columns, then the member "rows" with the number of
    rows, and nothing else.  So the frame tells the size: two calls with
    different sizes send different frames. *)
Theorem ResizeTerminal_frame_tells_size (cols rows cols' rows' : Z) :
  - 2 ^ 63 <= cols < 2 ^ 63 ->
  - 2 ^ 63 <= rows < 2 ^ 63 ->
  - 2 ^ 63 <= cols' < 2 ^ 63 ->
  - 2 ^ 63 <= rows' < 2 ^ 63 ->
  (exists payload,
      ResizeTerminal cols rows = MsgResizeTerminal :: MsgJsonData :: payload) /\
  (ResizeTerminal cols rows = ResizeTerminal cols' rows' ->
   cols = cols' /\ rows = rows') /\
  ResizeTerminal cols rows
    = MsgResizeTerminal :: ResizeTerminalDTO_json cols rows /\
  read_object (ResizeTerminalDTO_json cols rows)
    = Some [(key_columns, cols); (key_rows, rows)].
Proof.
  intros Hc Hr Hc' Hr'.
  assert (Hread : forall c r,
             - 2 ^ 63 <= c < 2 ^ 63 -> - 2 ^ 63 <= r < 2 ^ 63 ->
             read_object (ResizeTerminalDTO_json c r)
               = Some [(key_columns, c); (key_rows, r)]).
  { intros c r Hcr Hrr.
    set (second := x22 :: key_rows ++ x22 :: x3a :: FormatInt r ++ [x7d]).
    assert (Hshape :
      ResizeTerminalDTO_json c r
      = x7b :: x22 :: key_columns ++ x22 :: x3a :: FormatInt c ++ x2c :: second)
      by reflexivity.
    rewrite Hshape. unfold read_object.
    change (Byte.eqb x7b x7b) with true. cbv iota.
    assert (Hfuel : exists fuel,
               List.length (x22 :: key_columns ++
                              x22 :: x3a :: FormatInt c ++ x2c :: second)
               = S (S fuel)).
    { cbn [List.length]. rewrite length_app. cbn [List.length].
      eexists. rewrite Nat.add_succ_r. reflexivity. }
    destruct Hfuel as [fuel ->].
    cbn [read_members].
    rewrite read_member_written;
      [|cbv; intuition discriminate|exact Hcr|reflexivity].
    change (Byte.eqb x2c x2c) with true. cbv iota.
    unfold second at 1. cbn [read_members]. unfold second.
    rewrite read_member_written;
      [|cbv; intuition discriminate|exact Hrr|reflexivity].
    change (Byte.eqb x7d x7d) with true. reflexivity. }
  split; [eexists; reflexivity|].
  split; [|split; [reflexivity|exact (Hread cols rows Hc Hr)]].
  intros H.
  assert (Hj : ResizeTerminalDTO_json cols rows = ResizeTerminalDTO_json cols' rows')
    by (unfold ResizeTerminal, append in H; cbn [app] in H;
        exact (f_equal (@tl byte) H)).
  pose proof (Hread cols rows Hc Hr) as H1.
  rewrite Hj, (Hread cols' rows' Hc' Hr') in H1.
  inversion H1. split; reflexivity.
Qed.

Lemma ResizeTerminal_frame_tells_size_witness :
  (exists payload,
      ResizeTerminal 80 24 = MsgResizeTerminal :: MsgJsonData :: payload) /\
  ResizeTerminal 80 24 <> ResizeTerminal 132 43 /\
  ResizeTerminal 80 24 = MsgResizeTerminal :: ResizeTerminalDTO_json 80 24 /\
  read_object (ResizeTerminalDTO_json 80 24)
    = Some [(key_columns, 80); (key_rows, 24)].
Proof.
  assert (H : forall n, (n <? 2 ^ 62) = true -> (0 <=? n) = true ->
                        - 2 ^ 63 <= n < 2 ^ 63).
  { intros n H1 H2. apply Z.ltb_lt in H1. apply Z.leb_le in H2. lia. }
  destruct (ResizeTerminal_frame_tells_size 80 24 132 43
              (H 80 eq_refl eq_refl) (H 24 eq_refl eq_refl)
              (H 132 eq_refl eq_refl) (H 43 eq_refl eq_refl))
    as (Hshape & Hinj & Hframe & Hread).
  split; [exact Hshape|]. split; [|split; [exact Hframe|exact Hread]].
  intros Heq. destruct (Hinj Heq) as [Hc _]. discriminate Hc.
Defined.

End WsMore.
